(** * The ingestion, de-duplication and broadcast pipeline of the Crowdworks bot

    A shallow embedding of [backend/bot_service.py] (class [CrowdworksBot]),
    of the dictionary built by [backend/real_crowdworks_scraper.py] and of
    [broadcast_new_jobs] in [backend/main.py], followed by the properties the
    specification states about them.

    Conventions.
    - A Python [int] is a [Z]; [len] of a list or set is a [nat] injected
      into [Z] where it meets an [int].
    - Wall-clock values ([datetime.now().timestamp()], differences of
      [datetime]s in seconds) are rationals [Q]; the comparisons of the code
      are exact on them, its subtraction is the exact one here.
    - A Python [set] of ids is a [gset string], a [deque] a [list] with its
      left end at the head.
    - Job dictionaries are objects shared between several lists and mutated
      in place ([j['is_read'] = True]); they live in an object store
      ([heap]) and lists hold references into it. *)

From Stdlib Require Import ZArith QArith Lia.
From stdpp Require Import base gmap sets list strings.

Close Scope Q_scope.
#[local] Set Warnings "-clear-no-such-hyp".
Local Open Scope string_scope.
Local Open Scope list_scope.

(** ** Exceptions and results *)

(** The handlers of the bot tell [KeyboardInterrupt] and [SystemExit] from
    every other exception; [str(e)] of the latter is kept. *)
Inductive exn : Type :=
| KeyboardInterrupt
| SystemExit
| OtherException (msg : string).

Definition str_of_exn (e : exn) : string :=
  match e with
  | KeyboardInterrupt => ""
  | SystemExit => ""
  | OtherException m => m
  end.

(** [except Exception] catches neither [KeyboardInterrupt] nor
    [SystemExit], which derive from [BaseException] only. *)
Definition is_Exception (e : exn) : bool :=
  match e with
  | OtherException _ => true
  | _ => false
  end.

(** A call either returns or raises, in both cases leaving a state behind. *)
Inductive outcome (S : Type) : Type :=
| Returned (s : S)
| Raised (e : exn) (s : S).
Arguments Returned {S} s.
Arguments Raised {S} e s.

Definition state_of {S} (o : outcome S) : S :=
  match o with
  | Returned s => s
  | Raised _ s => s
  end.

(** ** Job dictionaries *)

(** The keys the pipeline reads, with the types the scraper stores under
    them; [None] is an absent key (or a stored [None]), read through
    [dict.get] with the default of the call site. [other] stands for the
    remaining keys (title, description, link, ...). *)
Record job : Type := mk_job {
  id : string;
  posted_at : option string;
  is_read : option bool;
  posted_at_timestamp : option Q;
  employer_id : option string;
  client_username : option string;
  category : option string;
  other : list (string * string)
}.

#[global] Instance job_inhabited : Inhabited job :=
  populate (mk_job "" None None None None None None []).

(** [j['is_read'] = True] *)
Definition set_is_read (j : job) : job :=
  mk_job (id j) (posted_at j) (Some true) (posted_at_timestamp j)
         (employer_id j) (client_username j) (category j) (other j).

(** [j.get('is_read', False)] *)
Definition get_is_read (j : job) : bool := default false (is_read j).

(** [x.get('posted_at', '')], the sort key. *)
Definition get_posted_at (j : job) : string := default "" (posted_at j).

(** [job.get('posted_at_timestamp', 0)] *)
Definition get_posted_at_timestamp (j : job) : Q := default 0%Q (posted_at_timestamp j).

(** ** The object store *)

Definition ref : Type := nat.
Definition heap : Type := list job.

Definition deref (h : heap) (r : ref) : job := h !!! r.

(** In-place update of the object behind [r]. *)
Definition update (h : heap) (r : ref) (f : job → job) : heap :=
  <[r := f (deref h r)]> h.

(** Fresh objects for the dictionaries a scraper call returns. *)
Definition alloc (h : heap) (js : list job) : list ref * heap :=
  (seq (length h) (length js), h ++ js).

(** ** Python list operations *)

(** [l[:n]]: a negative [n] counts from the end. *)
Definition slice_to {A} (l : list A) (n : Z) : list A :=
  if (0 <=? n)%Z then take (Z.to_nat n) l
  else take (length l - Z.to_nat (- n)) l.

(** [l[-n:]] for a positive [n]. *)
Definition slice_last {A} (l : list A) (n : nat) : list A :=
  drop (length l - n) l.

(** [list.sort(key=..., reverse=True)]: descending by key, and stable (equal
    keys keep their order). Keys are strings compared by code unit. *)
Section sort.
Context {A : Type} (key : A → string).

Fixpoint insert_desc (x : A) (l : list A) : list A :=
  match l with
  | [] => [x]
  | y :: l' =>
      if String.ltb (key x) (key y) then y :: insert_desc x l'
      else x :: y :: l'
  end.

Definition sort_desc (l : list A) : list A := foldr insert_desc [] l.
End sort.

(** ** The bot *)

(** An entry of [status_history], as [_log_status_change] builds it. *)
Record status_entry : Type := mk_status_entry {
  se_timestamp : Q;
  se_status : string;
  se_running : bool;
  se_paused : bool;
  se_jobs_found : Z;
  se_unread_count : Z;
  se_error_count : Z
}.

(** The attributes of [CrowdworksBot] that the ingestion pipeline reads or
    writes. The settings that only parameterise the scraper call or the bid
    generation (keywords, prompts, API key, ...) are left out. *)
Record bot : Type := mk_bot {
  objects : heap;  (* the job dictionaries allocated so far *)
  scraper_ok : bool;  (* [self.scraper] is not [None] *)
  is_running : bool;
  is_paused : bool;
  start_time : option Q;
  jobs_found : Z;
  unread_count : Z;
  seen_job_ids : gset string;
  seen_job_order : list string;  (* a [deque], oldest id first *)
  max_seen_ids : Z;
  current_jobs : list ref;  (* the snapshot *)
  max_jobs : Z;
  last_sent_job_ids : gset string;
  max_sent_job_ids : Z;
  job_max_age_hours : Z;
  cleanup_interval : Z;
  last_cleanup_time : option Q;
  last_scrape_time : option Q;
  error_count : Z;
  last_error : option string;
  status_history : list status_entry;
  scraping_thread : option bool  (* [None]: no thread object yet; [Some a]: [is_alive()] is [a] *)
}.

(** Assignment to one attribute, [self.x = v]. *)
Definition set_objects (v : heap) (b : bot) : bot :=
  mk_bot v (scraper_ok b) (is_running b) (is_paused b) (start_time b) (jobs_found b) (unread_count
    b) (seen_job_ids b) (seen_job_order b) (max_seen_ids b) (current_jobs b) (max_jobs b)
    (last_sent_job_ids b) (max_sent_job_ids b) (job_max_age_hours b) (cleanup_interval b)
    (last_cleanup_time b) (last_scrape_time b) (error_count b) (last_error b) (status_history b)
    (scraping_thread b).

Definition set_is_running (v : bool) (b : bot) : bot :=
  mk_bot (objects b) (scraper_ok b) v (is_paused b) (start_time b) (jobs_found b) (unread_count b)
    (seen_job_ids b) (seen_job_order b) (max_seen_ids b) (current_jobs b) (max_jobs b)
    (last_sent_job_ids b) (max_sent_job_ids b) (job_max_age_hours b) (cleanup_interval b)
    (last_cleanup_time b) (last_scrape_time b) (error_count b) (last_error b) (status_history b)
    (scraping_thread b).

Definition set_is_paused (v : bool) (b : bot) : bot :=
  mk_bot (objects b) (scraper_ok b) (is_running b) v (start_time b) (jobs_found b) (unread_count
    b) (seen_job_ids b) (seen_job_order b) (max_seen_ids b) (current_jobs b) (max_jobs b)
    (last_sent_job_ids b) (max_sent_job_ids b) (job_max_age_hours b) (cleanup_interval b)
    (last_cleanup_time b) (last_scrape_time b) (error_count b) (last_error b) (status_history b)
    (scraping_thread b).

Definition set_start_time (v : option Q) (b : bot) : bot :=
  mk_bot (objects b) (scraper_ok b) (is_running b) (is_paused b) v (jobs_found b) (unread_count b)
    (seen_job_ids b) (seen_job_order b) (max_seen_ids b) (current_jobs b) (max_jobs b)
    (last_sent_job_ids b) (max_sent_job_ids b) (job_max_age_hours b) (cleanup_interval b)
    (last_cleanup_time b) (last_scrape_time b) (error_count b) (last_error b) (status_history b)
    (scraping_thread b).

Definition set_jobs_found (v : Z) (b : bot) : bot :=
  mk_bot (objects b) (scraper_ok b) (is_running b) (is_paused b) (start_time b) v (unread_count b)
    (seen_job_ids b) (seen_job_order b) (max_seen_ids b) (current_jobs b) (max_jobs b)
    (last_sent_job_ids b) (max_sent_job_ids b) (job_max_age_hours b) (cleanup_interval b)
    (last_cleanup_time b) (last_scrape_time b) (error_count b) (last_error b) (status_history b)
    (scraping_thread b).

Definition set_unread_count (v : Z) (b : bot) : bot :=
  mk_bot (objects b) (scraper_ok b) (is_running b) (is_paused b) (start_time b) (jobs_found b) v
    (seen_job_ids b) (seen_job_order b) (max_seen_ids b) (current_jobs b) (max_jobs b)
    (last_sent_job_ids b) (max_sent_job_ids b) (job_max_age_hours b) (cleanup_interval b)
    (last_cleanup_time b) (last_scrape_time b) (error_count b) (last_error b) (status_history b)
    (scraping_thread b).

Definition set_seen_job_ids (v : gset string) (b : bot) : bot :=
  mk_bot (objects b) (scraper_ok b) (is_running b) (is_paused b) (start_time b) (jobs_found b)
    (unread_count b) v (seen_job_order b) (max_seen_ids b) (current_jobs b) (max_jobs b)
    (last_sent_job_ids b) (max_sent_job_ids b) (job_max_age_hours b) (cleanup_interval b)
    (last_cleanup_time b) (last_scrape_time b) (error_count b) (last_error b) (status_history b)
    (scraping_thread b).

Definition set_seen_job_order (v : list string) (b : bot) : bot :=
  mk_bot (objects b) (scraper_ok b) (is_running b) (is_paused b) (start_time b) (jobs_found b)
    (unread_count b) (seen_job_ids b) v (max_seen_ids b) (current_jobs b) (max_jobs b)
    (last_sent_job_ids b) (max_sent_job_ids b) (job_max_age_hours b) (cleanup_interval b)
    (last_cleanup_time b) (last_scrape_time b) (error_count b) (last_error b) (status_history b)
    (scraping_thread b).

Definition set_current_jobs (v : list ref) (b : bot) : bot :=
  mk_bot (objects b) (scraper_ok b) (is_running b) (is_paused b) (start_time b) (jobs_found b)
    (unread_count b) (seen_job_ids b) (seen_job_order b) (max_seen_ids b) v (max_jobs b)
    (last_sent_job_ids b) (max_sent_job_ids b) (job_max_age_hours b) (cleanup_interval b)
    (last_cleanup_time b) (last_scrape_time b) (error_count b) (last_error b) (status_history b)
    (scraping_thread b).

Definition set_max_jobs (v : Z) (b : bot) : bot :=
  mk_bot (objects b) (scraper_ok b) (is_running b) (is_paused b) (start_time b) (jobs_found b)
    (unread_count b) (seen_job_ids b) (seen_job_order b) (max_seen_ids b) (current_jobs b) v
    (last_sent_job_ids b) (max_sent_job_ids b) (job_max_age_hours b) (cleanup_interval b)
    (last_cleanup_time b) (last_scrape_time b) (error_count b) (last_error b) (status_history b)
    (scraping_thread b).

Definition set_last_sent_job_ids (v : gset string) (b : bot) : bot :=
  mk_bot (objects b) (scraper_ok b) (is_running b) (is_paused b) (start_time b) (jobs_found b)
    (unread_count b) (seen_job_ids b) (seen_job_order b) (max_seen_ids b) (current_jobs b)
    (max_jobs b) v (max_sent_job_ids b) (job_max_age_hours b) (cleanup_interval b)
    (last_cleanup_time b) (last_scrape_time b) (error_count b) (last_error b) (status_history b)
    (scraping_thread b).

Definition set_last_cleanup_time (v : option Q) (b : bot) : bot :=
  mk_bot (objects b) (scraper_ok b) (is_running b) (is_paused b) (start_time b) (jobs_found b)
    (unread_count b) (seen_job_ids b) (seen_job_order b) (max_seen_ids b) (current_jobs b)
    (max_jobs b) (last_sent_job_ids b) (max_sent_job_ids b) (job_max_age_hours b)
    (cleanup_interval b) v (last_scrape_time b) (error_count b) (last_error b) (status_history b)
    (scraping_thread b).

Definition set_last_scrape_time (v : option Q) (b : bot) : bot :=
  mk_bot (objects b) (scraper_ok b) (is_running b) (is_paused b) (start_time b) (jobs_found b)
    (unread_count b) (seen_job_ids b) (seen_job_order b) (max_seen_ids b) (current_jobs b)
    (max_jobs b) (last_sent_job_ids b) (max_sent_job_ids b) (job_max_age_hours b)
    (cleanup_interval b) (last_cleanup_time b) v (error_count b) (last_error b) (status_history b)
    (scraping_thread b).

Definition set_error_count (v : Z) (b : bot) : bot :=
  mk_bot (objects b) (scraper_ok b) (is_running b) (is_paused b) (start_time b) (jobs_found b)
    (unread_count b) (seen_job_ids b) (seen_job_order b) (max_seen_ids b) (current_jobs b)
    (max_jobs b) (last_sent_job_ids b) (max_sent_job_ids b) (job_max_age_hours b)
    (cleanup_interval b) (last_cleanup_time b) (last_scrape_time b) v (last_error b)
    (status_history b) (scraping_thread b).

Definition set_last_error (v : option string) (b : bot) : bot :=
  mk_bot (objects b) (scraper_ok b) (is_running b) (is_paused b) (start_time b) (jobs_found b)
    (unread_count b) (seen_job_ids b) (seen_job_order b) (max_seen_ids b) (current_jobs b)
    (max_jobs b) (last_sent_job_ids b) (max_sent_job_ids b) (job_max_age_hours b)
    (cleanup_interval b) (last_cleanup_time b) (last_scrape_time b) (error_count b) v
    (status_history b) (scraping_thread b).

Definition set_status_history (v : list status_entry) (b : bot) : bot :=
  mk_bot (objects b) (scraper_ok b) (is_running b) (is_paused b) (start_time b) (jobs_found b)
    (unread_count b) (seen_job_ids b) (seen_job_order b) (max_seen_ids b) (current_jobs b)
    (max_jobs b) (last_sent_job_ids b) (max_sent_job_ids b) (job_max_age_hours b)
    (cleanup_interval b) (last_cleanup_time b) (last_scrape_time b) (error_count b) (last_error b)
    v (scraping_thread b).

Definition set_scraping_thread (v : option bool) (b : bot) : bot :=
  mk_bot (objects b) (scraper_ok b) (is_running b) (is_paused b) (start_time b) (jobs_found b)
    (unread_count b) (seen_job_ids b) (seen_job_order b) (max_seen_ids b) (current_jobs b)
    (max_jobs b) (last_sent_job_ids b) (max_sent_job_ids b) (job_max_age_hours b)
    (cleanup_interval b) (last_cleanup_time b) (last_scrape_time b) (error_count b) (last_error b)
    (status_history b) v.

(** [CrowdworksBot.__init__] when no settings are stored: the defaults. *)
Definition init_bot (scraper : bool) : bot :=
  mk_bot [] scraper false false None 0 0 ∅ [] 5000 [] 50 ∅ 1000 24 3600 None None 0 None []
         None.

(** The snapshot as the values of its dictionaries. *)
Definition snapshot (b : bot) : list job := deref (objects b) <$> current_jobs b.

(** *** Settings *)

(** The one setting the pipeline state keeps is [maxJobs];
    [settings.get('maxJobs', 50)] is [None] for an absent key. The value is
    the one [int(...)] returns; when [int] raises, [max_jobs] is not
    assigned. *)
Record settings : Type := mk_settings { maxJobs : option Z }.

Definition clamp_max_jobs (s : settings) : Z :=
  Z.max 10 (Z.min 200 (default 50%Z (maxJobs s))).

Definition set_settings (s : settings) (b : bot) : bot :=
  set_max_jobs (clamp_max_jobs s) b.

(** *** Lifecycle *)

Definition _log_status_change (now : Q) (status : string) (b : bot) : bot :=
  let status_entry :=
    mk_status_entry now status (is_running b) (is_paused b) (jobs_found b)
                    (unread_count b) (error_count b) in
  let history := status_history b ++ [status_entry] in
  set_status_history
    (if (100 <? length history)%nat then slice_last history 100 else history) b.

(** [start]: the thread it launches runs [_scraping_loop_sync] below. *)
Definition start (now : Q) (b : bot) : outcome bot :=
  if is_running b then Returned b
  else if negb (scraper_ok b) then
    Raised (OtherException "Scraper not initialized")
           (set_is_paused false (set_is_running false b))
  else
    let b := set_is_running true b in
    let b := set_is_paused false b in
    let b := set_start_time (Some now) b in
    let b := set_jobs_found 0 b in
    let b := set_unread_count 0 b in
    let b := set_seen_job_ids ∅ b in
    let b := set_seen_job_order [] b in
    let b := set_error_count 0 b in
    let b := set_last_error None b in
    let b := _log_status_change now "STARTED" b in
    Returned (set_scraping_thread (Some true) b).

(** [stop]. [joined] tells whether the cycle thread ended within the two
    seconds [join(timeout=2)] waits; the thread is never killed, a thread
    that is still alive goes on until it reads [is_running]. *)
Definition stop (now : Q) (joined : bool) (b : bot) : bot :=
  let b := set_is_running false b in
  let b := set_is_paused false b in
  let b :=
    match scraping_thread b with
    | Some true => set_scraping_thread (Some (negb joined)) b
    | _ => b
    end in
  let b := set_seen_job_ids ∅ b in
  let b := set_current_jobs [] b in
  let b := set_jobs_found 0 b in
  let b := set_unread_count 0 b in
  let b := set_start_time None b in
  let b := set_last_scrape_time None b in
  _log_status_change now "STOPPED" b.

Definition pause (now : Q) (b : bot) : bot :=
  if negb (is_running b) then b
  else _log_status_change now "PAUSED" (set_is_paused true b).

Definition resume (now : Q) (b : bot) : bot :=
  if negb (is_running b) then b
  else _log_status_change now "RESUMED" (set_is_paused false b).

(** *** Read state *)

(** The first dictionary of the list whose id is [job_id]. *)
Fixpoint find_job (h : heap) (job_id : string) (l : list ref) : option ref :=
  match l with
  | [] => None
  | r :: l' => if decide (id (deref h r) = job_id) then Some r else find_job h job_id l'
  end.

Definition mark_job_as_read (job_id : string) (b : bot) : bot :=
  match find_job (objects b) job_id (current_jobs b) with
  | Some r =>
      let b := set_objects (update (objects b) r set_is_read) b in
      set_unread_count (Z.max 0 (unread_count b - 1)) b
  | None => b
  end.

(** [/api/data/clear-jobs] in [main.py] empties the snapshot and the sent
    set from outside the class. *)
Definition clear_jobs (b : bot) : bot :=
  set_last_sent_job_ids ∅ (set_current_jobs [] b).

(** *** The de-duplication cache *)

(** The pruning loop of [scrape_and_emit]:
    [while len(seen_job_ids) > max_seen_ids and seen_job_order:] pop the
    oldest id and remove it from the set when it is there. *)
Fixpoint prune_seen (max : Z) (ids : gset string) (order : list string)
  : gset string * list string :=
  match order with
  | [] => (ids, [])
  | old_id :: rest =>
      if (max <? Z.of_nat (size ids))%Z
      then prune_seen max (if decide (old_id ∈ ids) then ids ∖ {[old_id]} else ids) rest
      else (ids, order)
  end.

(** One round of the loop over [category_jobs], on the id alone: whether
    [job_id] is new, and the cache afterwards. *)
Definition admit_id (max : Z) (ids : gset string) (order : list string) (job_id : string)
  : bool * (gset string * list string) :=
  if decide (job_id ∈ ids) then (false, (ids, order))
  else (true, prune_seen max ({[job_id]} ∪ ids) (order ++ [job_id])).

Definition admit_ids (max : Z) (ids : gset string) (order : list string) (l : list string)
  : list bool * (gset string * list string) :=
  foldl (λ acc job_id,
           let r := admit_id max acc.2.1 acc.2.2 job_id in (acc.1 ++ [r.1], r.2))
        ([], (ids, order)) l.

(** The same round on the bot: a new job joins [batch_new_jobs]. *)
Definition admit_job (acc : list ref * bot) (job : ref) : list ref * bot :=
  let '(batch_new_jobs, b) := acc in
  let job_id := id (deref (objects b) job) in
  let r := admit_id (max_seen_ids b) (seen_job_ids b) (seen_job_order b) job_id in
  if r.1 then
    (batch_new_jobs ++ [job], set_seen_job_order r.2.2 (set_seen_job_ids r.2.1 b))
  else (batch_new_jobs, b).

Definition admit_jobs (category_jobs : list ref) (b : bot) : list ref * bot :=
  foldl admit_job ([], b) category_jobs.

(** *** The merge *)

Definition posted_at_key (h : heap) (r : ref) : string := get_posted_at (deref h r).

(** [{job['id']: job for job in jobs}]: a later job with the same id
    replaces an earlier one. *)
Definition jobs_map (h : heap) (jobs : list ref) : gmap string ref :=
  foldl (λ m job, <[id (deref h job) := job]> m) ∅ jobs.

(** [existing_jobs_map[j['id']].get('is_read', False)], false for an id
    that is not a key. *)
Definition was_read (h : heap) (existing_jobs_map : gmap string ref) (job_id : string) : bool :=
  match existing_jobs_map !! job_id with
  | Some e => get_is_read (deref h e)
  | None => false
  end.

(** The loop [for j in combined] that fills [deduped]. *)
Fixpoint dedup_loop (existing_jobs_map : gmap string ref) (combined : list ref)
    (seen_ids : gset string) (h : heap) : list ref * heap :=
  match combined with
  | [] => ([], h)
  | j :: rest =>
      let job_id := id (deref h j) in
      if decide (job_id ∈ seen_ids) then dedup_loop existing_jobs_map rest seen_ids h
      else
        let h' := if was_read h existing_jobs_map job_id then update h j set_is_read else h in
        let '(deduped, h'') :=
          dedup_loop existing_jobs_map rest ({[job_id]} ∪ seen_ids) h' in
        (j :: deduped, h'')
  end.

(** Lines 631 to 653 of [bot_service.py]: the merge of a sorted, non-empty
    [batch_new_jobs] into [current_jobs]. *)
Definition merge (batch_new_jobs : list ref) (b : bot) : bot :=
  let combined := batch_new_jobs ++ current_jobs b in
  let existing_jobs_map := jobs_map (objects b) (current_jobs b) in
  let '(deduped, h) := dedup_loop existing_jobs_map combined ∅ (objects b) in
  let deduped := sort_desc (posted_at_key h) deduped in
  set_current_jobs (slice_to deduped (max_jobs b)) (set_objects h b).

(** The first critical section of [scrape_and_emit]: admission of the
    category's jobs, then, for a non-empty batch, counters and merge. *)
Definition ingest (category_jobs : list ref) (b : bot) : list ref * bot :=
  let '(batch_new_jobs, b) := admit_jobs category_jobs b in
  match batch_new_jobs with
  | [] => ([], b)
  | _ =>
      let batch_new_jobs := sort_desc (posted_at_key (objects b)) batch_new_jobs in
      let n := Z.of_nat (length batch_new_jobs) in
      let b := set_jobs_found (jobs_found b + n) b in
      let b := set_unread_count (unread_count b + n) b in
      (batch_new_jobs, merge batch_new_jobs b)
  end.

(** *** Emission *)

(** [for job_id in list(s)[:n]: s.discard(job_id)]. The order in which
    Python lists a set is not specified; [elements] fixes one. *)
Definition discard_first (n : nat) (s : gset string) : gset string :=
  s ∖ list_to_set (take n (elements s)).

(** The part of [scrape_and_emit] that runs outside the lock: the jobs not
    sent before, and the sent set afterwards. Saving to the database, the
    [on_new_jobs] callback, bidding and notifications are calls to other
    components; their exceptions are caught around each call. *)
Definition emit (batch_new_jobs : list ref) (b : bot) : list ref * bot :=
  match batch_new_jobs with
  | [] => ([], b)
  | _ =>
      let truly_new_jobs :=
        filter (λ job, id (deref (objects b) job) ∉ last_sent_job_ids b) batch_new_jobs in
      match truly_new_jobs with
      | [] => ([], b)
      | _ =>
          let sent :=
            foldl (λ s job, {[id (deref (objects b) job)]} ∪ s)
                  (last_sent_job_ids b) truly_new_jobs in
          let sent :=
            if (max_sent_job_ids b <? Z.of_nat (size sent))%Z
            then discard_first 100 sent else sent in
          (truly_new_jobs, set_last_sent_job_ids sent b)
      end
  end.

(** *** One cycle *)

(** What the bookkeeping of one [_scrape_and_process_sync] call holds
    besides the bot: [aggregated_jobs] and the batches handed to
    [on_new_jobs], oldest first. *)
Record cycle : Type := mk_cycle {
  aggregated_jobs : list ref;
  emitted : list (list ref);
  cycle_bot : bot
}.

(** [scrape_and_emit(category)] on what [scraper.scrape_category] did:
    [None] when it raised, else the dictionaries it returned, which are
    fresh objects. *)
Definition scrape_and_emit (scraped : option (list job)) (c : cycle) : cycle :=
  let b := cycle_bot c in
  if negb (scraper_ok b) then c
  else
    match scraped with
    | None => c
    | Some [] => c
    | Some jobs =>
        let '(category_jobs, h) := alloc (objects b) jobs in
        let b := set_objects h b in
        let '(batch_new_jobs, b) := ingest category_jobs b in
        let '(truly_new_jobs, b) := emit batch_new_jobs b in
        mk_cycle (aggregated_jobs c ++ category_jobs)
                 (match truly_new_jobs with
                  | [] => emitted c
                  | _ => emitted c ++ [truly_new_jobs]
                  end)
                 b
    end.

(** The loop that marks the re-scraped copies of read jobs. *)
Definition preserve_read (existing_jobs_map : gmap string ref) (jobs : list ref) (h : heap)
  : heap :=
  foldl (λ h job,
           if was_read h existing_jobs_map (id (deref h job))
           then update h job set_is_read else h)
        h jobs.

(** Lines 708 to 721: the snapshot is rebuilt from the jobs of this cycle. *)
Definition rebuild (aggregated_jobs : list ref) (b : bot) : bot :=
  match aggregated_jobs with
  | [] => b
  | _ =>
      let aggregated_jobs := sort_desc (posted_at_key (objects b)) aggregated_jobs in
      let existing_jobs_map := jobs_map (objects b) (current_jobs b) in
      let h := preserve_read existing_jobs_map aggregated_jobs (objects b) in
      set_current_jobs (slice_to aggregated_jobs (max_jobs b)) (set_objects h b)
  end.

(** [_scrape_and_process_sync]. One thread per category runs
    [scrape_and_emit]; their critical sections exclude each other, and the
    model runs the threads one after the other in the order of [results]
    (the scraper's answer for each category of [self.categories]). *)
Definition _scrape_and_process_sync (results : list (option (list job))) (b : bot)
  : list (list ref) * bot :=
  if negb (scraper_ok b) then
    ([], set_last_error (Some "Scraper not initialized") (set_error_count (error_count b + 1) b))
  else
    let c := foldl (λ c scraped, scrape_and_emit scraped c) (mk_cycle [] [] b) results in
    (emitted c, rebuild (aggregated_jobs c) (cycle_bot c)).

(** *** Cleanup *)

(** [x > y] on numbers. *)
Definition Qgtb (x y : Q) : bool := negb (Qle_bool x y).

(** The guard of [_cleanup_old_jobs]: no pass yet, or at least
    [cleanup_interval] seconds since the last one. *)
Definition cleanup_due (now : Q) (b : bot) : bool :=
  match last_cleanup_time b with
  | None => true
  | Some last => Qle_bool (inject_Z (cleanup_interval b)) (now - last)%Q
  end.

Definition cutoff_time (now : Q) (b : bot) : Q :=
  (now - inject_Z (job_max_age_hours b * 3600))%Q.

(** A job stays when [job.get('posted_at_timestamp', 0) > cutoff_time]. *)
Definition fresh_enough (h : heap) (cutoff : Q) (job : ref) : bool :=
  Qgtb (get_posted_at_timestamp (deref h job)) cutoff.

(** [{job['id'] for job in jobs}] *)
Definition job_ids (h : heap) (jobs : list ref) : gset string :=
  list_to_set ((λ job, id (deref h job)) <$> jobs).

Definition _cleanup_old_jobs (now : Q) (b : bot) : bot :=
  if cleanup_due now b then
    let cutoff_time := cutoff_time now b in
    let kept := List.filter (fresh_enough (objects b) cutoff_time) (current_jobs b) in
    let b := set_current_jobs kept b in
    let current_job_ids := job_ids (objects b) (current_jobs b) in
    let b := set_seen_job_ids (seen_job_ids b ∩ current_job_ids) b in
    let b :=
      set_seen_job_order
        (List.filter (λ job_id, bool_decide (job_id ∈ current_job_ids)) (seen_job_order b)) b in
    let b := set_last_sent_job_ids (last_sent_job_ids b ∩ current_job_ids) b in
    set_last_cleanup_time (Some now) b
  else b.

(** *** The scraping loop *)

(** What the call [self._scrape_and_process_sync()] of one pass does: it
    returns after the scraper answered [results], or it raises [e] once the
    categories of [done] have been processed and before the snapshot is
    rebuilt (a thread that cannot be started, a setting of the wrong type). *)
Inductive scrape_event : Type :=
| ScrapeReturns (results : list (option (list job)))
| ScrapeRaises (e : exn) (done : list (option (list job))).

Definition run_scrape (ev : scrape_event) (b : bot) : outcome bot :=
  match ev with
  | ScrapeReturns results => Returned (_scrape_and_process_sync results b).2
  | ScrapeRaises e done =>
      Raised e (cycle_bot (foldl (λ c scraped, scrape_and_emit scraped c)
                                 (mk_cycle [] [] b) done))
  end.

(** The environment of one pass of the [while] loop: the clock, the scrape
    call, and the exceptions, if any, raised by the logging or the
    [time.sleep(5)] of the two handlers and by the wait before the next
    pass. *)
Record pass_env : Type := mk_pass_env {
  pass_now : Q;
  pass_scrape : scrape_event;
  first_handler_raises : option exn;
  second_handler_raises : option exn;
  wait_raises : option exn
}.

(** How the body of the [while] loop ends. *)
Inductive pass_result : Type :=
| NextPass (b : bot)          (* back to the loop condition *)
| LoopBreak (b : bot)         (* [break] *)
| Escapes (e : exn) (b : bot) (* [e] leaves the loop body *).

(** [error_count += 1; last_error = str(e)], the start of each handler. *)
Definition record_error (e : exn) (b : bot) : bot :=
  set_last_error (Some (str_of_exn e)) (set_error_count (error_count b + 1) b).

(** The wait [for _ in range(self.interval): ... time.sleep(1)] and its
    [except Exception: ... break]. *)
Definition wait_next (env : pass_env) (b : bot) : pass_result :=
  match wait_raises env with
  | None => NextPass b
  | Some e => if is_Exception e then LoopBreak b else Escapes e b
  end.

(** The second handler, [except BaseException as e] of the outer [try]. *)
Definition second_handler (env : pass_env) (e : exn) (b : bot) : pass_result :=
  if is_Exception e then
    let b := record_error e b in
    match second_handler_raises env with
    | None => wait_next env b
    | Some e' => Escapes e' b
    end
  else Escapes e b.

(** The first handler, [except BaseException as scrape_error] of the inner
    [try]; the two clauses before it re-raise [KeyboardInterrupt] and
    [SystemExit]. *)
Definition first_handler (env : pass_env) (e : exn) (b : bot) : pass_result :=
  if is_Exception e then
    let b := record_error e b in
    match first_handler_raises env with
    | None => wait_next env b
    | Some e' => second_handler env e' b
    end
  else second_handler env e b.

Definition loop_pass (env : pass_env) (b : bot) : pass_result :=
  if negb (is_paused b) then
    match run_scrape (pass_scrape env) b with
    | Returned b =>
        let b := set_last_scrape_time (Some (pass_now env)) b in
        wait_next env (_cleanup_old_jobs (pass_now env) b)
    | Raised e b => first_handler env e b
    end
  else wait_next env b.


(** The outermost handler of [_scraping_loop_sync]. *)
Definition fatal_handler (e : exn) (b : bot) : outcome bot :=
  if is_Exception e then
    Returned (set_is_paused false (set_is_running false (record_error e b)))
  else Raised e b.


(** ** The scraper's dictionaries *)

(** The keys of the literal [job_data] in [fetch_jobs_for_url], in the
    order of the source. *)
Definition job_data_keys : list string :=
  [ "id"; "title"; "description"; "original_description"; "link"; "posted_at";
    "posted_time_formatted"; "posted_time_relative"; "client"; "client_username";
    "client_display_name"; "avatar"; "category"; "budget"; "budget_info"; "job_price";
    "keywords"; "is_read"; "bid_generated"; "bid_content"; "bid_submitted";
    "auto_bid_enabled"; "scraped_at"; "evaluation_rate"; "order_count"; "evaluation_count";
    "contract_rate"; "identity_verified"; "identity_status"; "employer_id";
    "employer_contracts_count"; "employer_completed_count"; "employer_last_activity" ].

(** The keys [job] gives a field of its own. *)
Definition typed_keys : list string :=
  [ "id"; "posted_at"; "is_read"; "posted_at_timestamp"; "employer_id"; "client_username";
    "category" ].

(** What one entry of the search payload provides. *)
Record job_offer : Type := mk_job_offer {
  offer_id : string;              (* [str(job_offer['id'])] *)
  last_released_at : string;      (* [job["job_offer"]["last_released_at"]] *)
  offer_client_username : string; (* [client_info.get("username", "")] *)
  offer_employer_id : option string; (* [details.get('employer_id')] *)
  feed_name : string;             (* [get_feed_name(target_url)], lowered *)
  offer_value : string → string   (* the text stored under each other key *)
}.

Definition job_data (o : job_offer) : job :=
  mk_job (offer_id o) (Some (last_released_at o)) (Some false) None
         (offer_employer_id o) (Some (offer_client_username o)) (Some (feed_name o))
         ((λ k, (k, offer_value o k))
            <$> List.filter (λ k, negb (bool_decide (k ∈ typed_keys))) job_data_keys).

(** [scrape_category]: [job['category'] = category] on each job fetched. *)
Definition set_category (c : string) (j : job) : job :=
  mk_job (id j) (posted_at j) (is_read j) (posted_at_timestamp j)
         (employer_id j) (client_username j) (Some c) (other j).

Definition scrape_category (category : string) (offers : list job_offer) : list job :=
  set_category category <$> (job_data <$> offers).

(** ** Broadcast to the event-stream clients ([main.py]) *)

(** The dictionary sent for a job: the typed keys, and [job.get(k)] for the
    other keys of the literal ([None] for a key the job lacks). *)
Record compressed_job : Type := mk_compressed_job {
  c_id : string;
  c_is_read : bool;
  c_employer_id : option string;
  c_client_username : option string;
  c_category : option string;
  c_other : list (string * option string)
}.

Definition compressed_other_keys : list string :=
  [ "title"; "description"; "original_description"; "client"; "client_display_name";
    "avatar"; "employer_contracts_count"; "employer_completed_count";
    "employer_last_activity"; "link"; "posted_time_formatted"; "posted_time_relative";
    "job_price"; "bid_generated"; "suitability_score"; "auto_bid_enabled";
    "evaluation_rate"; "order_count"; "evaluation_count"; "contract_rate";
    "identity_verified"; "identity_status"; "budget_info" ].

Fixpoint assoc (k : string) (l : list (string * string)) : option string :=
  match l with
  | [] => None
  | (k', v) :: l' => if decide (k' = k) then Some v else assoc k l'
  end.

Definition compress_job (j : job) : compressed_job :=
  mk_compressed_job (id j) (get_is_read j) (employer_id j) (client_username j) (category j)
                    ((λ k, (k, assoc k (other j))) <$> compressed_other_keys).

Record event : Type := mk_event { ev_type : string; ev_jobs : list compressed_job }.

(** [queue.Queue(maxsize)]: bounded when [maxsize] is positive. *)
Record queue : Type := mk_queue { maxsize : Z; items : list event }.

Definition full (q : queue) : bool :=
  (0 <? maxsize q)%Z && (maxsize q <=? Z.of_nat (length (items q)))%Z.

(** [q.put_nowait(event)]: raises [queue.Full], an [Exception], on a full
    queue and never waits. *)
Definition put_nowait (ev : event) (q : queue) : outcome queue :=
  if full q then Raised (OtherException "Full") q
  else Returned (mk_queue (maxsize q) (items q ++ [ev])).

(** The clients: [sse_clients] is a list of weak references to the queues
    of the handler threads; [queues] holds the queue objects that are still
    alive, a reference to a collected queue yields [None]. *)
Record hub : Type := mk_hub {
  sse_clients : list nat;
  queues : gmap nat queue
}.

(** The registration in [do_GET] for [/api/jobs/stream]: a fresh
    [Queue(maxsize=100)] whose weak reference joins [sse_clients]. *)
Definition subscribe (r : nat) (hb : hub) : hub :=
  mk_hub (sse_clients hb ++ [r]) (<[r := mk_queue 100 []]> (queues hb)).

(** The rows of [BlockedUser], or [None] when the query raised (a warning
    is logged and both sets stay empty). *)
Definition blocked_sets (rows : option (list (option string * option string)))
  : gset string * gset string :=
  match rows with
  | None => (∅, ∅)
  | Some rows =>
      foldl (λ acc row,
               let acc1 := match row.1 with
                           | Some e => if decide (e = "") then acc.1 else {[e]} ∪ acc.1
                           | None => acc.1
                           end in
               let acc2 := match row.2 with
                           | Some u => if decide (u = "") then acc.2 else {[u]} ∪ acc.2
                           | None => acc.2
                           end in
               (acc1, acc2))
            (∅, ∅) rows
  end.

(** [x and x in s] for a string or [None] [x]. *)
Definition truthy_in (x : option string) (s : gset string) : bool :=
  match x with
  | Some v => negb (bool_decide (v = "")) && bool_decide (v ∈ s)
  | None => false
  end.

Definition is_blocked (blocked : gset string * gset string) (j : job) : bool :=
  truthy_in (employer_id j) blocked.1 || truthy_in (client_username j) blocked.2.

(** The loop over [clients_snapshot]: a dead reference is skipped, a live
    one joins [alive] and its queue is offered the event inside
    [try: ... except Exception: continue]. *)
Fixpoint push_all (ev : event) (clients : list nat) (alive : list nat) (qs : gmap nat queue)
  : outcome (list nat * gmap nat queue) :=
  match clients with
  | [] => Returned (alive, qs)
  | r :: rest =>
      match qs !! r with
      | None => push_all ev rest alive qs
      | Some q =>
          let alive := alive ++ [r] in
          match put_nowait ev q with
          | Returned q' => push_all ev rest alive (<[r := q']> qs)
          | Raised e _ =>
              if is_Exception e then push_all ev rest alive qs
              else Raised e (alive, qs)
          end
      end
  end.

(** [broadcast_new_jobs(jobs)], the [on_new_jobs] callback. [max_jobs] is
    read from the bot. The body runs inside [try: ... except Exception:
    pass]. *)
Definition broadcast_new_jobs (rows : option (list (option string * option string)))
    (max_jobs : Z) (jobs : list job) (hb : hub) : outcome hub :=
  match jobs with
  | [] => Returned hb
  | _ =>
      let blocked := blocked_sets rows in
      let filtered_jobs := List.filter (λ j, negb (is_blocked blocked j)) jobs in
      let compressed_jobs := compress_job <$> slice_to filtered_jobs max_jobs in
      let event := mk_event "new_jobs" compressed_jobs in
      match push_all event (sse_clients hb) [] (queues hb) with
      | Returned (alive, qs) => Returned (mk_hub alive qs)
      | Raised e (_, qs) =>
          if is_Exception e then Returned (mk_hub (sse_clients hb) qs)
          else Raised e (mk_hub (sse_clients hb) qs)
      end
  end.

(** The event [broadcast_new_jobs] builds from [jobs]. *)
Definition new_jobs_event (rows : option (list (option string * option string)))
    (max_jobs : Z) (jobs : list job) : event :=
  mk_event "new_jobs"
    (compress_job
       <$> slice_to (List.filter (λ j, negb (is_blocked (blocked_sets rows) j)) jobs) max_jobs).

(** ** Operations on the bot and their sequences *)

(** Another thread acts on the bot between two critical sections of a
    cycle. *)
Definition on_bot (f : bot → bot) (c : cycle) : cycle :=
  mk_cycle (aggregated_jobs c) (emitted c) (f (cycle_bot c)).

Definition state_after (r : pass_result) : bot :=
  match r with
  | NextPass b => b
  | LoopBreak b => b
  | Escapes _ b => b
  end.

(** The operations that read or write the pipeline state, each atomic with
    respect to the others: the calls of the HTTP handlers, one category's
    [scrape_and_emit], the rebuild that ends a cycle, a whole cycle, a
    cleanup, a whole pass of the loop, and the loop's outermost handler. *)
Inductive op : Type :=
| SetSettings (s : settings)
| Start (now : Q)
| Stop (now : Q) (joined : bool)
| Pause (now : Q)
| Resume (now : Q)
| MarkRead (job_id : string)
| ClearJobs
| ScrapeAndEmit (scraped : option (list job))
| Rebuild (aggregated : list ref)
| Cycle (results : list (option (list job)))
| Cleanup (now : Q)
| LoopPass (env : pass_env)
| Fatal (e : exn).

Definition step (o : op) (b : bot) : bot :=
  match o with
  | SetSettings s => set_settings s b
  | Start now => state_of (start now b)
  | Stop now joined => stop now joined b
  | Pause now => pause now b
  | Resume now => resume now b
  | MarkRead job_id => mark_job_as_read job_id b
  | ClearJobs => clear_jobs b
  | ScrapeAndEmit scraped => cycle_bot (scrape_and_emit scraped (mk_cycle [] [] b))
  | Rebuild aggregated => rebuild aggregated b
  | Cycle results => (_scrape_and_process_sync results b).2
  | Cleanup now => _cleanup_old_jobs now b
  | LoopPass env => state_after (loop_pass env b)
  | Fatal e => state_of (fatal_handler e b)
  end.

Definition run (ops : list op) (b : bot) : bot := foldl (λ b o, step o b) b ops.

(** No settings update of the sequence lowers [max_jobs] below the number
    of jobs the snapshot holds when it is applied. *)
Fixpoint settings_fit (ops : list op) (b : bot) : Prop :=
  match ops with
  | [] => True
  | o :: ops' =>
      match o with
      | SetSettings s => (Z.of_nat (length (current_jobs b)) ≤ clamp_max_jobs s)%Z
      | _ => True
      end ∧ settings_fit ops' (step o b)
  end.

(** ** The merge as the specification words it *)

(** Step 2: de-duplicate by id, keeping the first occurrence. *)
Fixpoint spec_dedup (seen : list string) (l : list job) : list job :=
  match l with
  | [] => []
  | j :: l' =>
      if bool_decide (id j ∈ seen) then spec_dedup seen l'
      else j :: spec_dedup (id j :: seen) l'
  end.

(** Step 3: an existing posting with the same id had [is_read = true]. *)
Definition spec_read_in (existing : list job) (job_id : string) : bool :=
  existsb (λ e, bool_decide (id e = job_id) && get_is_read e) existing.

Definition spec_carry_read (existing : list job) (j : job) : job :=
  if spec_read_in existing (id j) then set_is_read j else j.

(** Steps 1 to 5. *)
Definition spec_merge (existing incoming_new_batch : list job) (max_jobs : nat) : list job :=
  take max_jobs
       (sort_desc get_posted_at
                  (spec_carry_read existing <$> spec_dedup [] (incoming_new_batch ++ existing))).

(** ** Invariants *)

(** The cache is coherent when the cap is not negative, the set respects
    it, and every id of the set is still in the order. *)
Definition cache_ok (max : Z) (ids : gset string) (order : list string) : Prop :=
  (0 ≤ max)%Z ∧ (Z.of_nat (size ids) ≤ max)%Z ∧ ids ⊆ list_to_set order.

Definition bot_cache_ok (b : bot) : Prop :=
  cache_ok (max_seen_ids b) (seen_job_ids b) (seen_job_order b).

(** The fields of the cache, the only ones [bot_cache_ok] reads. *)
Definition cache_of (b : bot) : Z * gset string * list string :=
  (max_seen_ids b, seen_job_ids b, seen_job_order b).




(** A posting with this id is in the snapshot. *)
Definition survives (b : bot) (job_id : string) : Prop :=
  ∃ j, j ∈ snapshot b ∧ id j = job_id.


(** What a queue holds once it has been offered [ev]. *)
Definition offered (ev : event) (q : queue) : queue :=
  if full q then q else mk_queue (maxsize q) (items q ++ [ev]).

(** ** Sample data *)

Module Sample.

(** A posting as the scraper builds it. *)
Definition posting (job_id posted : string) : job :=
  job_data (mk_job_offer job_id posted "client" None "web" (λ _, "")).

Definition a : job := posting "a" "2024-05-01T10:00:00Z".
Definition b : job := posting "b" "2024-05-01T11:00:00Z".
Definition c : job := posting "c" "2024-05-01T12:00:00Z".
Definition job2 : job := posting "2" "2024-05-01T12:00:00Z".

(** Epoch seconds of three instants a minute apart. *)
Definition t0 : Q := 1714564800.
Definition t1 : Q := 1714564860.
Definition t2 : Q := 1714564920.
Definition t3 : Q := 1714564980.

Definition quiet (now : Q) (results : list (option (list job))) : pass_env :=
  mk_pass_env now (ScrapeReturns results) None None None.

(** A started bot after its first pass; the cleanup of that pass has run. *)
Definition started : bot :=
  run [Start t0; LoopPass (quiet t1 [Some [job2]; Some [job2]])] (init_bot true).

(** The second pass finds the same posting under two categories. *)
Definition twice : bot := run [LoopPass (quiet t2 [Some [job2]; Some [job2]])] started.

(** The user marks the posting read. *)
Definition twice_read : bot := run [MarkRead "2"] twice.

(** The second pass again, with [stop()] called while the cycle thread is
    between its last category and the rebuild; the thread outlives the
    join, and the posting is then marked read. *)
Definition stopped_late : bot :=
  let c := foldl (λ c scraped, scrape_and_emit scraped c) (mk_cycle [] [] started)
                 [Some [job2]; Some [job2]] in
  let c := on_bot (stop t2 false) c in
  run [MarkRead "2"] (rebuild (aggregated_jobs c) (cycle_bot c)).

(** The bot is started again. *)
Definition restarted : bot := run [Start t3] stopped_late.



(** An hour and a minute after the first cleanup. *)
Definition t4 : Q := 1714568520.

(** A pass whose scrape step raises. *)
Definition boom : pass_env :=
  mk_pass_env t2 (ScrapeRaises (OtherException "boom") []) None None None.

(** The third pass of the bot whose posting was marked read. *)
Definition third_pass : pass_env := quiet t3 [Some [job2]; Some [job2]].

(** Two clients: the queue of the first is full, the second is fresh. *)
Definition full_queue : queue := mk_queue 100 (replicate 100 (mk_event "new_jobs" [])).

Definition two_clients : hub :=
  subscribe 1 (mk_hub [0] {[0 := full_queue]}).

End Sample.

(** ** Further definitions *)

From Stdlib Require OrderedTypeEx.
From Stdlib Require Import Sorted.

(** Set and order of the cache hold the same ids, each once in the order. *)
Definition cache_coherent (ids : gset string) (order : list string) : Prop :=
  NoDup order ∧ ids = list_to_set order.

(** The scraper gave nothing for this category: it raised, or it returned
    an empty list. *)
Definition nothing_scraped (scraped : option (list job)) : Prop :=
  scraped = None ∨ scraped = Some [].

(** The counters and the status history. *)
Definition tallies_of (b : bot) : Z * Z * Z * list status_entry :=
  (jobs_found b, unread_count b, error_count b, status_history b).

(** The unread counter lies between zero and the number of jobs found, the
    error counter is not negative, and the history holds at most 100
    entries. *)
Definition tallies_ok (b : bot) : Prop :=
  (0 ≤ unread_count b ≤ jobs_found b)%Z ∧ (0 ≤ error_count b)%Z ∧
  (length (status_history b) ≤ 100)%nat.

(** *** Job dictionaries in the object store *)

(** [j'] is [j], or [j] with [is_read] set. *)
Definition same_but_read (j j' : job) : Prop := j' = j ∨ j' = set_is_read j.

(** [h'] is [h] with [is_read] set on some of its dictionaries. *)
Definition marks (h h' : heap) : Prop :=
  length h' = length h ∧ ∀ r, same_but_read (deref h r) (deref h' r).

(** Every reference of the list points into the store. *)
Definition valid_refs (h : heap) (refs : list ref) : Prop :=
  Forall (λ r, (r < length h)%nat) refs.

(** The key of [x] is not below the key of [y] in the string order: the
    relation between an element of a list sorted with [reverse=True] and
    those after it. *)
Definition key_not_below {A : Type} (key : A → string) (x y : A) : Prop :=
  String.ltb (key x) (key y) = false.

(** [x] was not posted before [y], by the string comparison of the sort
    key. *)
Definition not_older : job → job → Prop := key_not_below get_posted_at.

(** A list of jobs in the order the snapshot is meant to have. *)
Definition newest_first (l : list job) : Prop := StronglySorted not_older l.

(** The flag [existing_jobs_map] yields for an id, on values: the
    [is_read] of the last posting of [existing] with this id, false when
    there is none. *)
Definition last_read_in (existing : list job) (job_id : string) : bool :=
  foldl (λ acc e, if decide (id e = job_id) then get_is_read e else acc) false existing.

Definition carry_last (existing : list job) (j : job) : job :=
  if last_read_in existing (id j) then set_is_read j else j.

(** *** A sample store *)

Module Shelf.

(** Four dictionaries: posting a as the user has read it, posting b, and
    fresh copies of a and of a third posting c as a scrape returns them. *)
Definition store : heap := [set_is_read Sample.a; Sample.b; Sample.a; Sample.c].

(** A bot whose snapshot shows the first two. *)
Definition shelf : bot := set_current_jobs [0; 1] (set_objects store (init_bot true)).

End Shelf.

(** *** The store over time *)

(** [h'] holds the dictionaries of [h], each with at most its read flag
    set since, and possibly further ones. *)
Definition keeps_dictionaries (h h' : heap) : Prop :=
  (length h ≤ length h')%nat ∧
  ∀ r, (r < length h)%nat → same_but_read (deref h r) (deref h' r).

Definition store_of (b : bot) : heap * list ref := (objects b, current_jobs b).

(** Every job of the snapshot is a dictionary of the store. *)
Definition refs_valid (b : bot) : Prop := valid_refs (objects b) (current_jobs b).

(** The same for the bookkeeping of a cycle. *)
Definition cycle_valid (c : cycle) : Prop :=
  valid_refs (objects (cycle_bot c)) (aggregated_jobs c) ∧ refs_valid (cycle_bot c).

(** The operations but the bare rebuild, whose argument is any list of
    references; the rebuild of a cycle is part of [Cycle] and [LoopPass]. *)
Definition whole (o : op) : Prop :=
  match o with
  | Rebuild _ => False
  | _ => True
  end.

(** ** Reading the snapshot *)

(** [get_jobs]: the snapshot without the jobs of blocked users. [rows] are
    the rows of [BlockedUser], as for [broadcast_new_jobs]. The snapshot is
    not sliced to [max_jobs] here. *)
Definition get_jobs (rows : option (list (option string * option string))) (b : bot)
  : list job :=
  List.filter (λ j, negb (is_blocked (blocked_sets rows) j)) (snapshot b).

(** A row of [BlockedUser] blocks the job [j]: its employer id or its
    client username is that of the job, and is not empty. *)
Definition row_blocks (j : job) (row : option string * option string) : Prop :=
  (∃ e, e ≠ "" ∧ row.1 = Some e ∧ employer_id j = Some e) ∨
  (∃ u, u ≠ "" ∧ row.2 = Some u ∧ client_username j = Some u).

(** ** [scrape_multiple_categories] *)

(** [d[k] = v] on a dictionary as the list of its items in insertion
    order: a key that is present keeps its place. *)
Fixpoint dict_set (k : string) (v : job) (d : list (string * job)) : list (string * job) :=
  match d with
  | [] => [(k, v)]
  | (k', v') :: d' =>
      if decide (k' = k) then (k, v) :: d' else (k', v') :: dict_set k v d'
  end.

(** [for job in all_jobs: unique_jobs[job['id']] = job] *)
Definition unique_jobs (all_jobs : list job) : list (string * job) :=
  foldl (λ d job, dict_set (id job) job d) [] all_jobs.

(** [results] holds, for each category, what [scrape_category] returned,
    or [None] when it raised: the error is logged and the loop goes on. *)
Definition scrape_multiple_categories (results : list (option (list job))) : list job :=
  let all_jobs := concat (default [] <$> results) in
  sort_desc get_posted_at ((unique_jobs all_jobs).*2).

(** The last job of the list with this id. *)
Definition last_with (job_id : string) (l : list job) : option job :=
  last (List.filter (λ j, bool_decide (id j = job_id)) l).

(** ** The end of an event stream ([main.py]) *)

(** The [finally] of the handler of [/api/jobs/stream], run with the queue
    [r] of the handler still alive: [sse_clients] keeps the references
    that are alive and are not [r]. *)
Definition unsubscribe (r : nat) (hb : hub) : hub :=
  mk_hub (List.filter (λ r', bool_decide (is_Some (queues hb !! r') ∧ r' ≠ r))
                      (sse_clients hb))
         (queues hb).

(** * Properties *)

(** ** The de-duplication cache *)

(** The pruning loop pops a prefix of the order, oldest first, removes
    exactly the popped ids from the set, and stops once the set fits or the
    order is empty. *)
Lemma prune_seen_spec max ids order ids' order' :
  prune_seen max ids order = (ids', order') →
  ∃ popped, order = popped ++ order' ∧ ids' = ids ∖ list_to_set popped ∧
            ((Z.of_nat (size ids') ≤ max)%Z ∨ order' = []).
Proof.
  revert ids. induction order as [|old rest IH]; intros ids Hp; simpl in Hp.
  - injection Hp as <- <-. exists []. split; [done|]. split; [set_solver|]. by right.
  - destruct (max <? Z.of_nat (size ids))%Z eqn:E.
    + apply IH in Hp as (popped & -> & -> & Hb).
      exists (old :: popped). split; [done|]. split; [|done].
      case_decide; set_solver.
    + injection Hp as <- <-. exists []. split; [done|]. split; [set_solver|].
      left. lia.
Qed.

Lemma prune_seen_fits max ids order :
  (Z.of_nat (size ids) ≤ max)%Z → prune_seen max ids order = (ids, order).
Proof.
  intros Hle. destruct order as [|old rest]; simpl; [done|].
  destruct (max <? Z.of_nat (size ids))%Z eqn:E; [lia|done].
Qed.

Lemma prune_seen_bound max ids order :
  (0 ≤ max)%Z → ids ⊆ list_to_set order →
  cache_ok max (prune_seen max ids order).1 (prune_seen max ids order).2.
Proof.
  intros Hmax Hsub.
  destruct (prune_seen max ids order) as [ids' order'] eqn:Hp.
  apply prune_seen_spec in Hp as (popped & -> & -> & Hb). simpl.
  split; [done|]. split.
  - destruct Hb as [Hb| ->]; [done|].
    rewrite app_nil_r in Hsub.
    replace (ids ∖ list_to_set popped) with (∅ : gset string) by set_solver.
    rewrite size_empty. lia.
  - rewrite list_to_set_app_L in Hsub. set_solver.
Qed.

Lemma admit_id_ok max ids order job_id :
  cache_ok max ids order →
  cache_ok max (admit_id max ids order job_id).2.1 (admit_id max ids order job_id).2.2.
Proof.
  intros (Hmax & Hsize & Hsub). unfold admit_id.
  case_decide; simpl; [done|].
  apply prune_seen_bound; [done|].
  rewrite list_to_set_app_L. set_solver.
Qed.

Lemma prune_seen_cons max ids old_id rest :
  prune_seen max ids (old_id :: rest) =
  if (max <? Z.of_nat (size ids))%Z
  then prune_seen max (if decide (old_id ∈ ids) then ids ∖ {[old_id]} else ids) rest
  else (ids, old_id :: rest).
Proof. reflexivity. Qed.

(** C2. One admission step: the id is reported new exactly when the set
    does not hold it; a known id leaves the cache as it is; a new id goes to
    the tail of the order, without eviction while the set stays within
    [max_seen_ids], and with the eviction of the oldest id once the set
    exceeds it (exactly that one id when set and order hold the same ids).
    With a cap of 2, admitting 1, 2, 3 evicts 1, and 1 is then new again. *)
Theorem admit_id_spec :
  ∀ (max : Z) (ids : gset string) (order : list string) (job_id : string),
    let r := admit_id max ids order job_id in
    (r.1 = true ↔ job_id ∉ ids) ∧
    (job_id ∈ ids → r.2 = (ids, order)) ∧
    (job_id ∉ ids → (Z.of_nat (size ids) < max)%Z →
       r.2 = ({[job_id]} ∪ ids, order ++ [job_id])) ∧
    (job_id ∉ ids → (max ≤ Z.of_nat (size ids))%Z →
       ∃ oldest rest, order ++ [job_id] = oldest :: rest ∧
                      (oldest ∉ r.2.1) ∧ suffix (r.2.2) rest) ∧
    (job_id ∉ ids → (1 ≤ max)%Z → Z.of_nat (size ids) = max →
       NoDup order → ids = list_to_set order →
       ∃ oldest rest, order = oldest :: rest ∧
                      r.2 = (({[job_id]} ∪ ids) ∖ {[oldest]}, rest ++ [job_id])) ∧
    (admit_ids 2 ∅ [] ["1"; "2"; "3"]).2 = ({["2"; "3"]}, ["2"; "3"]) ∧
    (admit_id 2 {["2"; "3"]} ["2"; "3"] "1").1 = true.
Proof.
  intros max ids order job_id r. subst r. unfold admit_id.
  split; [|split; [|split; [|split; [|split; [|split]]]]].
  - case_decide; simpl; split; intros; done.
  - intros Hin. by rewrite decide_True.
  - intros Hnin Hlt. rewrite decide_False by done. simpl.
    apply prune_seen_fits. rewrite size_union by set_solver.
    rewrite size_singleton. lia.
  - intros Hnin Hge. rewrite decide_False by done. cbn [snd fst].
    assert (Hsz : (max <? Z.of_nat (size ({[job_id]} ∪ ids)))%Z = true).
    { apply Z.ltb_lt. rewrite size_union by set_solver. rewrite size_singleton. lia. }
    destruct (order ++ [job_id]) as [|oldest rest] eqn:Ho.
    { by destruct order. }
    exists oldest, rest. split; [done|]. rewrite prune_seen_cons, Hsz.
    destruct (prune_seen max _ rest) as [ids' order'] eqn:Hp.
    apply prune_seen_spec in Hp as (popped & -> & -> & _). cbn [snd fst]. split.
    + case_decide; set_solver.
    + by exists popped.
  - intros Hnin Hmax Hsz Hnd ->. rewrite decide_False by done. cbn [snd fst].
    destruct order as [|oldest rest].
    { rewrite list_to_set_nil, size_empty in Hsz. lia. }
    exists oldest, rest. split; [done|].
    change ((oldest :: rest) ++ [job_id]) with (oldest :: (rest ++ [job_id])).
    rewrite prune_seen_cons.
    rewrite size_list_to_set in Hsz by done.
    apply NoDup_cons in Hnd as [Hno Hnd].
    assert (Hj : job_id ≠ oldest ∧ job_id ∉ rest) by set_solver.
    rewrite size_union, size_singleton, size_list_to_set by (by constructor || set_solver).
    replace (max <? Z.of_nat (1 + length (oldest :: rest)))%Z with true
      by (symmetry; apply Z.ltb_lt; lia).
    rewrite decide_True by set_solver.
    apply prune_seen_fits.
    assert (Heq : ({[job_id]} ∪ list_to_set (oldest :: rest)) ∖ {[oldest]}
                  = ({[job_id]} ∪ list_to_set rest : gset string)) by set_solver.
    rewrite Heq, size_union, size_singleton, size_list_to_set by (done || set_solver).
    simpl in Hsz. lia.
  - by vm_compute.
  - by vm_compute.
Qed.

(** ** Sequences of operations *)

Lemma foldl_invariant {A B} (P : A → Prop) (f : A → B → A) (l : list B) (a : A) :
  P a → (∀ a x, P a → P (f a x)) → P (foldl f a l).
Proof.
  intros Ha Hf. revert a Ha. induction l as [|x l IH]; intros a Ha; simpl; [done|].
  apply IH. by apply Hf.
Qed.

Lemma run_app ops1 ops2 b : run (ops1 ++ ops2) b = run ops2 (run ops1 b).
Proof. unfold run. apply foldl_app. Qed.

Lemma run_snoc ops o b : run (ops ++ [o]) b = step o (run ops b).
Proof. by rewrite run_app. Qed.

Lemma bot_cache_ok_frame b b' : cache_of b' = cache_of b → bot_cache_ok b → bot_cache_ok b'.
Proof. unfold cache_of, bot_cache_ok. intros [= -> -> ->]. done. Qed.

Lemma cache_of_log now status b : cache_of (_log_status_change now status b) = cache_of b.
Proof. reflexivity. Qed.

Lemma cache_of_merge batch b : cache_of (merge batch b) = cache_of b.
Proof. unfold merge. by destruct (dedup_loop _ _ _ _). Qed.

Lemma cache_of_emit batch b : cache_of (emit batch b).2 = cache_of b.
Proof.
  unfold emit. destruct batch; [done|].
  by destruct (filter _ _).
Qed.

Lemma cache_of_rebuild aggregated b : cache_of (rebuild aggregated b) = cache_of b.
Proof. by destruct aggregated. Qed.

Lemma cache_of_mark_read job_id b : cache_of (mark_job_as_read job_id b) = cache_of b.
Proof. unfold mark_job_as_read. by destruct (find_job _ _ _). Qed.

Lemma cache_of_record_error e b : cache_of (record_error e b) = cache_of b.
Proof. reflexivity. Qed.

Lemma admit_job_ok acc job :
  bot_cache_ok acc.2 → bot_cache_ok (admit_job acc job).2.
Proof.
  destruct acc as [batch b]. intros Hok. unfold admit_job. simpl in Hok.
  pose proof (admit_id_ok _ _ _ (id (deref (objects b) job)) Hok) as Hok'.
  destruct (admit_id _ _ _ _) as [[|] [ids order]]; simpl in *; done.
Qed.

Lemma admit_jobs_ok category_jobs b :
  bot_cache_ok b → bot_cache_ok (admit_jobs category_jobs b).2.
Proof.
  intros Hok. unfold admit_jobs.
  apply (foldl_invariant (λ acc, bot_cache_ok acc.2)); [done|].
  intros acc job. apply admit_job_ok.
Qed.

Lemma ingest_ok category_jobs b : bot_cache_ok b → bot_cache_ok (ingest category_jobs b).2.
Proof.
  intros Hok. unfold ingest.
  pose proof (admit_jobs_ok category_jobs b Hok) as Hok'.
  destruct (admit_jobs category_jobs b) as [[|r batch] b']; [done|].
  simpl in *. eapply bot_cache_ok_frame; [apply cache_of_merge|]. done.
Qed.

Lemma scrape_and_emit_ok scraped c :
  bot_cache_ok (cycle_bot c) → bot_cache_ok (cycle_bot (scrape_and_emit scraped c)).
Proof.
  intros Hok. unfold scrape_and_emit.
  destruct (scraper_ok (cycle_bot c)); simpl; [|done].
  destruct scraped as [[|j jobs]|]; [done| |done].
  unfold alloc.
  match goal with |- context [ingest ?cj ?b0] =>
    pose proof (ingest_ok cj b0 Hok) as Hok'; destruct (ingest cj b0) as [batch b1] end.
  pose proof (cache_of_emit batch b1) as He.
  destruct (emit batch b1) as [truly b2]. simpl in *.
  eapply bot_cache_ok_frame; [apply He|done].
Qed.

Lemma cycle_ok results b :
  bot_cache_ok b → bot_cache_ok (_scrape_and_process_sync results b).2.
Proof.
  intros Hok. unfold _scrape_and_process_sync.
  destruct (scraper_ok b); simpl; [|done].
  eapply bot_cache_ok_frame; [apply cache_of_rebuild|].
  apply (foldl_invariant (λ c, bot_cache_ok (cycle_bot c))); [done|].
  intros c scraped. apply scrape_and_emit_ok.
Qed.

Lemma cleanup_ok now b : bot_cache_ok b → bot_cache_ok (_cleanup_old_jobs now b).
Proof.
  intros (Hmax & Hsize & Hsub). unfold _cleanup_old_jobs.
  destruct (cleanup_due now b); [|done].
  unfold bot_cache_ok, cache_ok. simpl. split; [done|]. split.
  - etrans; [|apply Hsize]. apply inj_le, subseteq_size. set_solver.
  - intros x [Hx Hc]%elem_of_intersection.
    apply elem_of_list_to_set, list_elem_of_In, filter_In. split.
    + apply list_elem_of_In. specialize (Hsub x Hx).
      by apply elem_of_list_to_set in Hsub.
    + by apply bool_decide_eq_true.
Qed.

(** A property of the bot kept by the cycle, the cleanup and the error
    bookkeeping is kept by a pass of the loop, however the pass ends. *)
Lemma loop_pass_preserves (P : bot → Prop) :
  (∀ results b, P b → P (_scrape_and_process_sync results b).2) →
  (∀ scraped c, P (cycle_bot c) → P (cycle_bot (scrape_and_emit scraped c))) →
  (∀ now b, P b → P (_cleanup_old_jobs now b)) →
  (∀ e b, P b → P (record_error e b)) →
  (∀ t b, P b → P (set_last_scrape_time t b)) →
  ∀ env b, P b → P (state_after (loop_pass env b)).
Proof.
  intros Hcycle Hcat Hclean Herr Htime env b Hb.
  assert (Hwait : ∀ b, P b → P (state_after (wait_next env b))).
  { intros b0 Hb0. unfold wait_next.
    destruct (wait_raises env) as [e|]; [|done]. by destruct (is_Exception e). }
  assert (Hsecond : ∀ e b, P b → P (state_after (second_handler env e b))).
  { intros e b0 Hb0. unfold second_handler.
    destruct (is_Exception e); [|done].
    destruct (second_handler_raises env); [by apply Herr|]. by apply Hwait, Herr. }
  assert (Hfirst : ∀ e b, P b → P (state_after (first_handler env e b))).
  { intros e b0 Hb0. unfold first_handler.
    destruct (is_Exception e); [|by apply Hsecond].
    destruct (first_handler_raises env); [by apply Hsecond, Herr|].
    by apply Hwait, Herr. }
  unfold loop_pass. destruct (is_paused b); simpl; [by apply Hwait|].
  destruct (pass_scrape env) as [results|e done]; simpl.
  - by apply Hwait, Hclean, Htime, Hcycle.
  - apply Hfirst.
    apply (foldl_invariant (λ c, P (cycle_bot c))); [done|].
    intros c scraped. apply Hcat.
Qed.

Lemma cache_ok_empty max order : (0 ≤ max)%Z → cache_ok max ∅ order.
Proof. intros Hmax. split; [done|]. split; [|done]. rewrite size_empty. lia. Qed.

Lemma step_cache_ok o b : bot_cache_ok b → bot_cache_ok (step o b).
Proof.
  intros Hok. destruct o; cbn [step].
  - done.
  - destruct Hok as [Hmax Hrest]. destruct b. unfold start, bot_cache_ok in *.
    simpl in *. repeat case_match; simpl; try (apply cache_ok_empty; exact Hmax).
    all: by split.
  - destruct Hok as [Hmax _]. destruct b. unfold stop, bot_cache_ok.
    repeat case_match; apply cache_ok_empty; exact Hmax.
  - unfold pause. by destruct (is_running b).
  - unfold resume. by destruct (is_running b).
  - eapply bot_cache_ok_frame; [apply cache_of_mark_read|done].
  - done.
  - by apply (scrape_and_emit_ok scraped (mk_cycle [] [] b)).
  - eapply bot_cache_ok_frame; [apply cache_of_rebuild|done].
  - by apply cycle_ok.
  - by apply cleanup_ok.
  - apply (loop_pass_preserves bot_cache_ok); try done.
    + apply cycle_ok.
    + apply scrape_and_emit_ok.
    + apply cleanup_ok.
  - unfold fatal_handler. by destruct (is_Exception e).
Qed.

(** Each pop of the pruning loop happens with the set over the cap: the
    loop pops no id it need not pop. *)
Lemma prune_seen_minimal max ids order ids' order' :
  prune_seen max ids order = (ids', order') →
  ∃ popped, order = popped ++ order' ∧ ids' = ids ∖ list_to_set popped ∧
            ∀ k, (k < length popped)%nat →
                 (max < Z.of_nat (size (ids ∖ list_to_set (take k popped))))%Z.
Proof.
  revert ids. induction order as [|old rest IH]; intros ids Hp; simpl in Hp.
  - injection Hp as <- <-. exists []. split; [done|]. split; [set_solver|].
    simpl. lia.
  - destruct (max <? Z.of_nat (size ids))%Z eqn:E.
    + apply IH in Hp as (popped & -> & -> & Hmin).
      exists (old :: popped). split; [done|]. split; [case_decide; set_solver|].
      intros [|k] Hk.
      * replace (ids ∖ list_to_set (take 0 (old :: popped))) with ids by set_solver.
        lia.
      * cbn [length] in Hk. specialize (Hmin k ltac:(lia)).
        replace (ids ∖ list_to_set (take (S k) (old :: popped)))
          with ((if decide (old ∈ ids) then ids ∖ {[old]} else ids)
                  ∖ list_to_set (take k popped)); [done|].
        cbn [take]. case_decide; set_solver.
    + injection Hp as <- <-. exists []. split; [done|]. split; [set_solver|].
      simpl. lia.
Qed.

(** [admit_job] puts the job in the batch when [admit_id] reports its id
    new, and stores the cache [admit_id] returns. *)
Lemma admit_job_stores batch b job :
  let r := admit_id (max_seen_ids b) (seen_job_ids b) (seen_job_order b)
                    (id (deref (objects b) job)) in
  let acc := admit_job (batch, b) job in
  acc.1 = (if r.1 then batch ++ [job] else batch) ∧
  seen_job_ids acc.2 = r.2.1 ∧ seen_job_order acc.2 = r.2.2.
Proof.
  intros r acc. subst acc r. unfold admit_job, admit_id.
  case_decide; cbn [fst snd]; [done|]. by destruct b.
Qed.

(** C5. From the initial state and through any sequence of operations the
    set of seen ids holds at most [max_seen_ids] (5000) ids. In every such
    state an admission leaves the set within the cap; an id the set holds
    changes nothing; a new id goes to the tail of the order and the loop
    then pops a prefix of the order, oldest first, and removes exactly the
    popped ids from the set, each pop happening while the set is over the
    cap: nothing is evicted when the set with the new id fits, and the
    eviction stops as soon as the bound is restored. [admit_job] stores
    this result in the bot. *)
Theorem seen_ids_bounded :
  ∀ (scraper : bool) (ops : list op),
    let b := run ops (init_bot scraper) in
    (Z.of_nat (size (seen_job_ids b)) ≤ max_seen_ids b)%Z ∧
    ∀ job_id,
      let r := admit_id (max_seen_ids b) (seen_job_ids b) (seen_job_order b) job_id in
      let grown := ({[job_id]} ∪ seen_job_ids b : gset string) in
      (Z.of_nat (size r.2.1) ≤ max_seen_ids b)%Z ∧
      (job_id ∈ seen_job_ids b → r = (false, (seen_job_ids b, seen_job_order b))) ∧
      (job_id ∉ seen_job_ids b →
       r.1 = true ∧
       ∃ popped, seen_job_order b ++ [job_id] = popped ++ r.2.2 ∧
                 r.2.1 = grown ∖ list_to_set popped ∧
                 (∀ k, (k < length popped)%nat →
                       (max_seen_ids b
                        < Z.of_nat (size (grown ∖ list_to_set (take k popped))))%Z) ∧
                 ((Z.of_nat (size grown) ≤ max_seen_ids b)%Z →
                  popped = [] ∧ r.2 = (grown, seen_job_order b ++ [job_id]))) ∧
      (∀ batch job,
          id (deref (objects b) job) = job_id →
          let acc := admit_job (batch, b) job in
          acc.1 = (if r.1 then batch ++ [job] else batch) ∧
          seen_job_ids acc.2 = r.2.1 ∧ seen_job_order acc.2 = r.2.2).
Proof.
  intros scraper ops b.
  assert (Hok : bot_cache_ok b).
  { subst b. unfold run. apply foldl_invariant.
    - by apply cache_ok_empty.
    - intros b o. apply step_cache_ok. }
  split; [apply Hok|]. intros job_id r grown.
  split; [apply (admit_id_ok _ _ _ job_id Hok)|].
  split; [|split].
  - intros Hin. subst r. unfold admit_id. by rewrite decide_True.
  - intros Hnew. subst r. unfold admit_id. rewrite decide_False by done.
    cbn [fst snd]. split; [done|]. fold grown.
    destruct (prune_seen _ _ _) as [ids' order'] eqn:Hp.
    destruct (prune_seen_minimal _ _ _ _ _ Hp) as (popped & Ho & -> & Hmin).
    exists popped. cbn [fst snd]. split; [done|]. split; [done|]. split; [done|].
    intros Hfit. destruct popped as [|old popped].
    + split; [done|]. simpl in Ho. rewrite <- Ho. f_equal. set_solver.
    + specialize (Hmin 0%nat ltac:(simpl; lia)).
      replace (grown ∖ list_to_set (take 0 (old :: popped))) with grown in Hmin
        by set_solver.
      lia.
  - intros batch job Hid acc. subst acc r. rewrite <- Hid. apply admit_job_stores.
Qed.

(** ** The size of the snapshot *)


Section capped.
Variables m cap : Z.
Hypothesis Hm : (0 ≤ m ≤ cap)%Z.









End capped.




Lemma settings_fit_take ops k b : settings_fit ops b → settings_fit (take k ops) b.
Proof.
  revert k b. induction ops as [|o ops IH]; intros [|k] b; simpl; try done.
  intros [Ho Hops]. split; [done|]. by apply IH.
Qed.





(** ** Cleanup *)

Lemma Qgtb_true x y : Qgtb x y = true ↔ (y < x)%Q.
Proof.
  unfold Qgtb. rewrite negb_true_iff. split.
  - intros Hb. apply Qnot_le_lt. intros Hle. apply Qle_bool_iff in Hle. congruence.
  - intros Hlt. destruct (Qle_bool x y) eqn:E; [|done].
    apply Qle_bool_iff in E. by apply Qlt_not_le in Hlt.
Qed.

Lemma Qgtb_false x y : Qgtb x y = false ↔ (x <= y)%Q.
Proof.
  unfold Qgtb. rewrite negb_false_iff. apply Qle_bool_iff.
Qed.

Lemma fmap_filter {A B} (f : A → B) (p : B → bool) (l : list A) :
  f <$> List.filter (λ x, p (f x)) l = List.filter p (f <$> l).
Proof.
  induction l as [|x l IH]; [done|].
  cbn [List.filter fmap list_fmap]. destruct (p (f x)); cbn [fmap list_fmap]; by f_equal.
Qed.

Lemma elem_of_job_ids h jobs x :
  x ∈ job_ids h jobs ↔ ∃ r, r ∈ jobs ∧ id (deref h r) = x.
Proof.
  unfold job_ids. rewrite elem_of_list_to_set, list_elem_of_fmap. naive_solver.
Qed.

(** What a cleanup pass that runs does to each field. *)
Lemma cleanup_runs now b :
  cleanup_due now b = true →
  let b' := _cleanup_old_jobs now b in
  let ids := job_ids (objects b) (current_jobs b') in
  objects b' = objects b ∧
  current_jobs b' = List.filter (fresh_enough (objects b) (cutoff_time now b)) (current_jobs b) ∧
  seen_job_ids b' = seen_job_ids b ∩ ids ∧
  seen_job_order b' = List.filter (λ x, bool_decide (x ∈ ids)) (seen_job_order b) ∧
  last_sent_job_ids b' = last_sent_job_ids b ∩ ids ∧
  last_cleanup_time b' = Some now.
Proof. intros Hdue. unfold _cleanup_old_jobs. rewrite Hdue. done. Qed.

Lemma survives_job_ids b x :
  survives b x ↔ x ∈ job_ids (objects b) (current_jobs b).
Proof.
  unfold survives, snapshot. rewrite elem_of_job_ids. split.
  - intros (j & Hj & <-). apply list_elem_of_fmap in Hj as (r & -> & Hr). eauto.
  - intros (r & Hr & <-). exists (deref (objects b) r). split; [|done].
    apply list_elem_of_fmap. eauto.
Qed.

(** C8. [posted_ts] stands for the epoch timestamp of a [posted_at]
    string, the value [datetime.fromisoformat(...).timestamp()] that the
    scraper computes and does not store. The pass that runs filters on the
    field [posted_at_timestamp], which reads as 0 where it is absent; so,
    the clock being at least [job_max_age_hours] past the epoch, a snapshot
    of dictionaries without the field (those of the scraper) is emptied:
    every posting goes, also one whose timestamp is later than the cutoff,
    and the set of seen ids, their order and the sent set are emptied with
    it. The sample bot has scraped one posting of 12:00 on 1 May 2024 under
    two categories; the pass of 13:02 the same day, whose cutoff is 13:02
    on 30 April, removes both copies. Whatever the dictionaries, the pass
    keeps what the field puts later than the cutoff and leaves in the three
    structures their former ids of surviving postings. *)
Theorem cleanup_removes_recent_postings :
  ∀ (posted_ts : string → Q) (now : Q) (b : bot),
    cleanup_due now b = true →
    (inject_Z (job_max_age_hours b * 3600) <= now)%Q →
    Forall (λ j, posted_at_timestamp j = None) (snapshot b) →
    let b' := _cleanup_old_jobs now b in
    let cutoff := cutoff_time now b in
    snapshot b' = [] ∧
    (∀ j, j ∈ snapshot b → (cutoff < posted_ts (get_posted_at j))%Q → j ∉ snapshot b') ∧
    seen_job_ids b' = ∅ ∧ seen_job_order b' = [] ∧ last_sent_job_ids b' = ∅ ∧
    (let s := Sample.twice in
     cleanup_due Sample.t4 s = true ∧
     (inject_Z (job_max_age_hours s * 3600) <= Sample.t4)%Q ∧
     snapshot s = [Sample.job2; Sample.job2] ∧
     scrape_category "web" [mk_job_offer "2" "2024-05-01T12:00:00Z" "client" None "web"
                                         (λ _, "")] = [Sample.job2] ∧
     get_posted_at Sample.job2 = "2024-05-01T12:00:00Z" ∧
     (cutoff_time Sample.t4 s == 1714482120)%Q ∧
     ((posted_ts "2024-05-01T12:00:00Z" == 1714564800)%Q →
      (cutoff_time Sample.t4 s < posted_ts (get_posted_at Sample.job2))%Q) ∧
     snapshot (_cleanup_old_jobs Sample.t4 s) = []) ∧
    (∀ now0 b0,
        cleanup_due now0 b0 = true →
        let b1 := _cleanup_old_jobs now0 b0 in
        snapshot b1
        = List.filter (λ j, Qgtb (get_posted_at_timestamp j) (cutoff_time now0 b0))
                      (snapshot b0) ∧
        (∀ x, x ∈ seen_job_ids b1 ↔ x ∈ seen_job_ids b0 ∧ survives b1 x) ∧
        (∀ x, x ∈ seen_job_order b1 ↔ x ∈ seen_job_order b0 ∧ survives b1 x) ∧
        (∀ x, x ∈ last_sent_job_ids b1 ↔ x ∈ last_sent_job_ids b0 ∧ survives b1 x)).
Proof.
  intros posted_ts now b Hdue Hclock Hall b' cutoff.
  assert (Hgen : ∀ now0 b0,
        cleanup_due now0 b0 = true →
        let b1 := _cleanup_old_jobs now0 b0 in
        snapshot b1
        = List.filter (λ j, Qgtb (get_posted_at_timestamp j) (cutoff_time now0 b0))
                      (snapshot b0) ∧
        (∀ x, x ∈ seen_job_ids b1 ↔ x ∈ seen_job_ids b0 ∧ survives b1 x) ∧
        (∀ x, x ∈ seen_job_order b1 ↔ x ∈ seen_job_order b0 ∧ survives b1 x) ∧
        (∀ x, x ∈ last_sent_job_ids b1 ↔ x ∈ last_sent_job_ids b0 ∧ survives b1 x)).
  { intros now0 b0 Hdue0 b1.
    destruct (cleanup_runs now0 b0 Hdue0) as (Hobj & Hjobs & Hseen & Horder & Hsent & _).
    fold b1 in Hobj, Hjobs, Hseen, Horder, Hsent.
    assert (Hsurv : ∀ x, survives b1 x ↔ x ∈ job_ids (objects b0) (current_jobs b1)).
    { intros x. rewrite survives_job_ids. by rewrite Hobj. }
    split; [|split; [|split]].
    - unfold snapshot. rewrite Hobj, Hjobs.
      exact (fmap_filter (deref (objects b0))
               (λ j, Qgtb (get_posted_at_timestamp j) (cutoff_time now0 b0))
               (current_jobs b0)).
    - intros x. rewrite Hseen, Hsurv. set_solver.
    - intros x. rewrite Horder, Hsurv.
      rewrite list_elem_of_In, filter_In, <- list_elem_of_In, bool_decide_eq_true. done.
    - intros x. rewrite Hsent, Hsurv. set_solver. }
  destruct (Hgen now b Hdue) as (Hsnap & Hseen & Horder & Hsent). fold b' in Hsnap, Hseen, Horder, Hsent.
  assert (Hcut : (0 <= cutoff_time now b)%Q).
  { unfold cutoff_time. by apply (proj1 (Qle_minus_iff _ _)). }
  assert (Hempty : snapshot b' = []).
  { rewrite Hsnap. clear Hsnap. induction Hall as [|j l Hj _ IH]; [done|].
    cbn [List.filter]. unfold get_posted_at_timestamp at 1. rewrite Hj. cbn [default].
    rewrite (proj2 (Qgtb_false 0 (cutoff_time now b)) Hcut). exact IH. }
  assert (Hnone : ∀ x, ¬ survives b' x).
  { intros x (j & Hj & _). rewrite Hempty in Hj. by apply elem_of_nil in Hj. }
  split; [exact Hempty|]. split.
  { intros j _ _. rewrite Hempty. apply not_elem_of_nil. }
  split.
  { apply set_eq. intros x. rewrite Hseen. split; [intros [_ H]; by apply Hnone in H|set_solver]. }
  split.
  { apply elem_of_nil_inv. intros x Hx. apply Horder in Hx as [_ H]. by apply Hnone in H. }
  split.
  { apply set_eq. intros x. rewrite Hsent. split; [intros [_ H]; by apply Hnone in H|set_solver]. }
  split; [|exact Hgen].
  clear. cbv zeta.
  assert (Hs : cleanup_due Sample.t4 Sample.twice = true ∧
               (inject_Z (job_max_age_hours Sample.twice * 3600) <= Sample.t4)%Q ∧
               snapshot Sample.twice = [Sample.job2; Sample.job2] ∧
               (cutoff_time Sample.t4 Sample.twice == 1714482120)%Q ∧
               snapshot (_cleanup_old_jobs Sample.t4 Sample.twice) = []) by (by vm_compute).
  destruct Hs as (H1 & H2 & H3 & H4 & H5).
  split; [exact H1|]. split; [exact H2|]. split; [exact H3|].
  split; [by vm_compute|].
  split; [by vm_compute|]. split; [exact H4|]. split; [|exact H5].
  intros Hts. rewrite H4.
  change (get_posted_at Sample.job2) with "2024-05-01T12:00:00Z". rewrite Hts. done.
Qed.

(** The pass of 13:02 on the sample bot, with the timestamp Python gives
    the posting. *)
Lemma cleanup_removes_recent_postings_witness :
  let s := Sample.twice in
  cleanup_due Sample.t4 s = true ∧
  (inject_Z (job_max_age_hours s * 3600) <= Sample.t4)%Q ∧
  Forall (λ j, posted_at_timestamp j = None) (snapshot s) ∧
  snapshot (_cleanup_old_jobs Sample.t4 s) = [].
Proof.
  intros s.
  assert (Hdue : cleanup_due Sample.t4 s = true) by (by vm_compute).
  assert (Hclock : (inject_Z (job_max_age_hours s * 3600) <= Sample.t4)%Q)
    by (by vm_compute).
  assert (Hall : Forall (λ j, posted_at_timestamp j = None) (snapshot s)).
  { vm_compute. repeat constructor. }
  split; [exact Hdue|]. split; [exact Hclock|]. split; [exact Hall|].
  exact (proj1 (cleanup_removes_recent_postings (λ _, 1714564800%Q) Sample.t4 s
                  Hdue Hclock Hall)).
Defined.

(** The scraper's dictionaries carry [posted_at] and [is_read], and no
    [posted_at_timestamp]. *)
Lemma scrape_category_fields category offers j :
  j ∈ scrape_category category offers →
  is_Some (posted_at j) ∧ is_read j = Some false ∧ posted_at_timestamp j = None.
Proof.
  unfold scrape_category. intros Hj.
  apply list_elem_of_fmap in Hj as (j' & -> & Hj').
  apply list_elem_of_fmap in Hj' as (o & -> & _). simpl. eauto.
Qed.

(** C10. A cleanup pass that runs keeps only postings whose
    [posted_at_timestamp] is strictly greater than the cutoff; a missing
    [posted_at_timestamp] reads as 0, so that, the clock being at least
    [job_max_age_hours] past the epoch, a pass removes every posting
    without the field, whatever its [posted_at], and empties a snapshot
    that holds only such postings; the first call of the cleanup is a pass
    that runs; the dictionaries of the scraper carry [posted_at] and never
    [posted_at_timestamp]. *)
Theorem cleanup_drops_missing_timestamp :
  ∀ (now : Q) (b : bot),
    cleanup_due now b = true →
    (inject_Z (job_max_age_hours b * 3600) <= now)%Q →
    let b' := _cleanup_old_jobs now b in
    (∀ r, r ∈ current_jobs b' →
          r ∈ current_jobs b ∧
          (cutoff_time now b < get_posted_at_timestamp (deref (objects b) r))%Q) ∧
    (∀ j, posted_at_timestamp j = None → get_posted_at_timestamp j = 0%Q) ∧
    (∀ r, posted_at_timestamp (deref (objects b) r) = None → r ∉ current_jobs b') ∧
    (Forall (λ j, posted_at_timestamp j = None) (snapshot b) → snapshot b' = []) ∧
    (∀ now0 b0, last_cleanup_time b0 = None → cleanup_due now0 b0 = true) ∧
    (∀ category offers j,
        j ∈ scrape_category category offers →
        is_Some (posted_at j) ∧ posted_at_timestamp j = None) ∧
    "posted_at" ∈ job_data_keys ∧ "posted_at_timestamp" ∉ job_data_keys.
Proof.
  intros now b Hdue Hclock b'.
  destruct (cleanup_runs now b Hdue) as (Hobj & Hjobs & _).
  fold b' in Hobj, Hjobs.
  assert (Hkept : ∀ r, r ∈ current_jobs b' →
            r ∈ current_jobs b ∧
            (cutoff_time now b < get_posted_at_timestamp (deref (objects b) r))%Q).
  { intros r. rewrite Hjobs, list_elem_of_In, filter_In, <- list_elem_of_In.
    unfold fresh_enough. by rewrite Qgtb_true. }
  assert (Hcut : (0 <= cutoff_time now b)%Q).
  { unfold cutoff_time. by apply (proj1 (Qle_minus_iff _ _)). }
  assert (Hdrop : ∀ r, posted_at_timestamp (deref (objects b) r) = None →
                       r ∉ current_jobs b').
  { intros r Hnone Hr. apply Hkept in Hr as [_ Hlt].
    unfold get_posted_at_timestamp in Hlt. rewrite Hnone in Hlt. simpl in Hlt.
    by apply Qlt_not_le in Hlt. }
  split; [done|]. split.
  { intros j Hnone. unfold get_posted_at_timestamp. by rewrite Hnone. }
  split; [done|]. split.
  { intros Hall. unfold snapshot.
    rewrite (elem_of_nil_inv (current_jobs b')); [done|].
    intros r Hr. apply (Hdrop r); [|done].
    apply Hkept in Hr as [Hr _].
    rewrite Forall_forall in Hall. apply Hall.
    unfold snapshot. apply list_elem_of_fmap. eauto. }
  split.
  { intros now0 b0 Hnone. unfold cleanup_due. by rewrite Hnone. }
  split.
  { intros category offers j Hj.
    destruct (scrape_category_fields category offers j Hj) as (? & _ & ?). done. }
  split; apply (bool_decide_unpack _); by vm_compute.
Qed.

(** The first pass of a bot that scraped the same posting under two
    categories, on 1 May 2024. *)
Lemma cleanup_drops_missing_timestamp_witness :
  let b := (_scrape_and_process_sync [Some [Sample.job2]; Some [Sample.job2]]
                                     (init_bot true)).2 in
  cleanup_due Sample.t1 b = true ∧
  (inject_Z (job_max_age_hours b * 3600) <= Sample.t1)%Q ∧
  length (snapshot b) = 2 ∧
  snapshot (_cleanup_old_jobs Sample.t1 b) = [].
Proof.
  intros b.
  assert (Hdue : cleanup_due Sample.t1 b = true) by (by vm_compute).
  assert (Hclock : (inject_Z (job_max_age_hours b * 3600) <= Sample.t1)%Q)
    by (by vm_compute).
  split; [exact Hdue|]. split; [exact Hclock|]. split; [by vm_compute|].
  apply (cleanup_drops_missing_timestamp Sample.t1 b Hdue Hclock).
  vm_compute. repeat constructor.
Defined.

(** ** Stopping *)

(** C9. [stop] resets the flags, empties the snapshot and the set of seen
    ids and zeroes the counters, whether or not the thread ended within the
    join, and a thread that outlives the join is left alive; but it leaves
    [seen_job_order] as it was, which [start] clears: after the second pass
    of the sample bot the order still holds the id "2" once [stop] has
    returned. *)
Theorem stop_keeps_seen_job_order :
  ∀ (now : Q) (joined : bool) (b : bot),
    let b' := stop now joined b in
    is_running b' = false ∧ is_paused b' = false ∧
    current_jobs b' = [] ∧ seen_job_ids b' = ∅ ∧
    jobs_found b' = 0%Z ∧ unread_count b' = 0%Z ∧
    (scraping_thread b = Some true → scraping_thread b' = Some (negb joined)) ∧
    seen_job_order b' = seen_job_order b ∧
    (is_running b = false → scraper_ok b = true →
     seen_job_order (state_of (start now b)) = []) ∧
    seen_job_order (stop Sample.t3 joined Sample.twice) = ["2"].
Proof.
  intros now joined b b'.
  assert (Hsample : seen_job_order (stop Sample.t3 joined Sample.twice) = ["2"])
    by (by vm_compute).
  revert Hsample. generalize (seen_job_order (stop Sample.t3 joined Sample.twice)).
  intros order Hsample. subst b'.
  destruct b. unfold stop, start. simpl.
  repeat case_match; simpl; repeat split; try done; intros; by simplify_eq/=.
Qed.

(** ** Exceptions in the loop *)









(** ** Broadcast *)

Lemma put_nowait_spec ev q :
  put_nowait ev q = if full q then Raised (OtherException "Full") q
                    else Returned (offered ev q).
Proof. unfold put_nowait, offered. by destruct (full q). Qed.

(** The loop over the clients returns; it offers the event once to the
    queue of every live client of the list and touches no other queue. *)
Lemma push_all_spec ev clients :
  NoDup clients →
  ∀ alive qs,
    ∃ alive' qs',
      push_all ev clients alive qs = Returned (alive', qs') ∧
      alive' = alive ++ List.filter (λ r, bool_decide (is_Some (qs !! r))) clients ∧
      (∀ r, r ∉ clients → qs' !! r = qs !! r) ∧
      (∀ r, r ∈ clients → qs' !! r = offered ev <$> qs !! r).
Proof.
  induction 1 as [|r clients Hr Hnd IH]; intros alive qs; simpl.
  - exists alive, qs. rewrite app_nil_r. split; [done|]. split; [done|]. split; [done|].
    intros r Hr. by apply elem_of_nil in Hr.
  - destruct (qs !! r) as [q|] eqn:Hq.
    + set (qs1 := if full q then qs else <[r := offered ev q]> qs).
      assert (Hr1 : qs1 !! r = Some (offered ev q)).
      { subst qs1. unfold offered. destruct (full q); [done|]. by rewrite lookup_insert_eq. }
      assert (Hother : ∀ r', r' ≠ r → qs1 !! r' = qs !! r').
      { intros r' Hne. subst qs1. destruct (full q); [done|]. by rewrite lookup_insert_ne. }
      assert (Heq : match put_nowait ev q with
                    | Returned q' => push_all ev clients (alive ++ [r]) (<[r:=q']> qs)
                    | Raised e _ =>
                        if is_Exception e then push_all ev clients (alive ++ [r]) qs
                        else Raised e (alive ++ [r], qs)
                    end = push_all ev clients (alive ++ [r]) qs1).
      { subst qs1. rewrite put_nowait_spec. unfold offered. by destruct (full q). }
      rewrite Heq. clear Heq.
      destruct (IH (alive ++ [r]) qs1) as (alive' & qs' & -> & -> & Hout & Hin).
      exists (((alive ++ [r]) ++
               List.filter (λ r0, bool_decide (is_Some (qs1 !! r0))) clients)), qs'.
      split; [done|]. split; [|split].
      * rewrite bool_decide_eq_true_2 by eauto. rewrite <- app_assoc. simpl.
        do 2 f_equal. apply filter_ext_in. intros r' Hr'.
        rewrite Hother; [done|]. intros ->. by apply list_elem_of_In in Hr'.
      * intros r' Hr'. rewrite Hout by set_solver. apply Hother. set_solver.
      * intros r' [->|Hr']%elem_of_cons.
        -- rewrite Hout by done. by rewrite Hr1, Hq.
        -- rewrite Hin by done. rewrite Hother; [done|]. intros ->. by apply Hr.
    + destruct (IH alive qs) as (alive' & qs' & -> & -> & Hout & Hin).
      eexists _, qs'. split; [done|]. split; [|split].
      * by rewrite bool_decide_eq_false_2 by (by intros [? ?]).
      * intros r' Hr'. apply Hout. set_solver.
      * intros r' [->|Hr']%elem_of_cons.
        -- rewrite Hout by done. by rewrite Hq.
        -- by apply Hin.
Qed.

(** C6. Publishing a non-empty batch to any set of registered clients
    returns normally; a live client whose queue is full keeps its queue as
    it is (the event is dropped for it alone), every live client whose
    queue has room receives the event at the tail of its queue, no other
    queue changes, and the registry keeps exactly the live clients. The
    queue of a client is created with capacity 100, and is full exactly
    when it holds at least 100 events. *)
Theorem broadcast_never_blocks :
  ∀ (rows : option (list (option string * option string))) (max_jobs : Z)
    (jobs : list job) (hb : hub),
    jobs ≠ [] →
    NoDup (sse_clients hb) →
    let ev := new_jobs_event rows max_jobs jobs in
    ∃ hb',
      broadcast_new_jobs rows max_jobs jobs hb = Returned hb' ∧
      (∀ r q, r ∈ sse_clients hb → queues hb !! r = Some q → full q = true →
              queues hb' !! r = Some q) ∧
      (∀ r q, r ∈ sse_clients hb → queues hb !! r = Some q → full q = false →
              queues hb' !! r = Some (mk_queue (maxsize q) (items q ++ [ev]))) ∧
      (∀ r, r ∉ sse_clients hb → queues hb' !! r = queues hb !! r) ∧
      (∀ r, r ∈ sse_clients hb' ↔ r ∈ sse_clients hb ∧ is_Some (queues hb !! r)) ∧
      (∀ r hb0, queues (subscribe r hb0) !! r = Some (mk_queue 100 [])) ∧
      (∀ l, full (mk_queue 100 l) = true ↔ (100 ≤ length l)%nat).
Proof.
  intros rows max_jobs jobs hb Hne Hnd ev.
  destruct (push_all_spec ev (sse_clients hb) Hnd [] (queues hb))
    as (alive' & qs' & Hpush & -> & Hout & Hin).
  exists (mk_hub (List.filter (λ r, bool_decide (is_Some (queues hb !! r))) (sse_clients hb))
                 qs').
  split; [|split; [|split; [|split; [|split; [|split]]]]].
  - unfold broadcast_new_jobs. destruct jobs as [|j jobs]; [done|].
    fold (new_jobs_event rows max_jobs (j :: jobs)). fold ev. by rewrite Hpush.
  - intros r q Hr Hq Hf. simpl. rewrite Hin, Hq by done. simpl.
    unfold offered. by rewrite Hf.
  - intros r q Hr Hq Hf. simpl. rewrite Hin, Hq by done. simpl.
    unfold offered. by rewrite Hf.
  - intros r Hr. simpl. by apply Hout.
  - intros r. simpl.
    rewrite list_elem_of_In, filter_In, <- list_elem_of_In, bool_decide_eq_true. done.
  - intros r hb0. simpl. by rewrite lookup_insert_eq.
  - intros l. unfold full. simpl. rewrite Z.leb_le. lia.
Qed.

(** One more event for a client whose queue holds 100 events and for a
    fresh client: the first queue is unchanged, the second receives the
    event. *)
Lemma broadcast_never_blocks_witness :
  let ev := new_jobs_event None 50 [Sample.job2] in
  [Sample.job2] ≠ [] ∧ NoDup (sse_clients Sample.two_clients) ∧
  ∃ hb',
    broadcast_new_jobs None 50 [Sample.job2] Sample.two_clients = Returned hb' ∧
    queues hb' !! 0 = Some Sample.full_queue ∧
    queues hb' !! 1 = Some (mk_queue 100 [ev]).
Proof.
  intros ev.
  assert (Hne : [Sample.job2] ≠ []) by done.
  assert (Hnd : NoDup (sse_clients Sample.two_clients)).
  { apply (bool_decide_unpack _). by vm_compute. }
  split; [exact Hne|]. split; [exact Hnd|].
  destruct (broadcast_never_blocks None 50 [Sample.job2] Sample.two_clients Hne Hnd)
    as (hb' & Hret & Hfull & Hroom & _).
  exists hb'. split; [exact Hret|]. split.
  - apply Hfull; [apply (bool_decide_unpack _); by vm_compute| |]; by vm_compute.
  - apply (Hroom 1 (mk_queue 100 []));
      [apply (bool_decide_unpack _); by vm_compute| |]; by vm_compute.
Defined.

(** ** Read state across merges and rebuilds *)

(** C3. The sample bot holds the posting "2" twice (it was found under two
    categories) and the user has marked it read, which marks the first
    copy. The next cycle scrapes it again under both categories; its
    rebuild retains the id and leaves both retained copies unread: the
    rebuild reads the flag of the last existing copy only. *)
Theorem rebuild_forgets_read_flag :
  let b := Sample.twice_read in
  let c := foldl (λ c scraped, scrape_and_emit scraped c) (mk_cycle [] [] b)
                 [Some [Sample.job2]; Some [Sample.job2]] in
  let b' := state_after (loop_pass Sample.third_pass b) in
  (id <$> snapshot b = ["2"; "2"] ∧ get_is_read <$> snapshot b = [true; false]) ∧
  (emitted c = [] ∧ get_is_read <$> snapshot (cycle_bot c) = [true; false]) ∧
  (id <$> snapshot (rebuild (aggregated_jobs c) (cycle_bot c)) = ["2"; "2"] ∧
   get_is_read <$> snapshot (rebuild (aggregated_jobs c) (cycle_bot c)) = [false; false]) ∧
  (id <$> snapshot b' = ["2"; "2"] ∧ get_is_read <$> snapshot b' = [false; false]).
Proof. by vm_compute. Qed.

(** C1. The merge of the postings c, b, a (newest first) with a cap of 2
    yields c, b, as the specified algorithm does. On the sample bot that
    was stopped during a cycle, had its posting "2" (held twice) marked
    read and was started again, the merge of the re-scraped posting "2"
    retains the new copy unread, where the specified algorithm marks it
    read: the merge reads the flag of the last existing copy only. *)
Theorem merge_forgets_read_flag :
  let small := set_max_jobs 2 (init_bot true) in
  let fresh := alloc (objects small) [Sample.c; Sample.b; Sample.a] in
  let b := Sample.restarted in
  let again := alloc (objects b) [Sample.job2] in
  let merged := ingest again.1 (set_objects again.2 b) in
  (snapshot (ingest fresh.1 (set_objects fresh.2 small)).2 = [Sample.c; Sample.b] ∧
   spec_merge [] [Sample.c; Sample.b; Sample.a] 2 = [Sample.c; Sample.b]) ∧
  (id <$> snapshot b = ["2"; "2"] ∧ get_is_read <$> snapshot b = [true; false]) ∧
  merged.1 = again.1 ∧
  snapshot merged.2 = [Sample.job2] ∧
  spec_merge (snapshot b) [Sample.job2] 50 = [set_is_read Sample.job2].
Proof. by vm_compute. Qed.

(** * Further properties *)

Local Open Scope nat_scope.

(** ** The cache as a window *)

Lemma size_list_to_set_NoDup (l : list string) :
  NoDup l → size (list_to_set (C:=gset string) l) = length l.
Proof. apply size_list_to_set. Qed.

(** X1. On a coherent cache within its cap, the admission of a new id leaves
    in the order exactly the last [max_seen_ids] ids of the order extended
    by the new id, and keeps the cache coherent and within the cap. *)
Theorem admit_id_window :
  ∀ (max : Z) (ids : gset string) (order : list string) (job_id : string),
    (0 ≤ max)%Z →
    (Z.of_nat (size ids) ≤ max)%Z →
    cache_coherent ids order →
    job_id ∉ ids →
    let r := admit_id max ids order job_id in
    r.2.2 = slice_last (order ++ [job_id]) (Z.to_nat max) ∧
    cache_coherent r.2.1 r.2.2 ∧
    (Z.of_nat (size r.2.1) ≤ max)%Z.
Proof.
  intros max ids order job_id Hmax Hsize [Hnd ->] Hnew r. subst r.
  unfold admit_id. rewrite decide_False by done. cbn [snd fst].
  rewrite size_list_to_set in Hsize by done.
  assert (Hj : job_id ∉ order) by set_solver.
  assert (Hnd' : NoDup (order ++ [job_id])).
  { apply NoDup_app. split; [done|]. split; [|apply NoDup_singleton].
    intros x Hx ->%list_elem_of_singleton. done. }
  assert (Hset : ({[job_id]} ∪ list_to_set order : gset string)
                 = list_to_set (order ++ [job_id])).
  { rewrite list_to_set_app_L. set_solver. }
  rewrite Hset. unfold slice_last. rewrite length_app. simpl.
  destruct (decide (Z.of_nat (length order) < max)%Z) as [Hlt|Hge].
  - rewrite prune_seen_fits.
    2:{ rewrite size_list_to_set by done. rewrite length_app. simpl. lia. }
    cbn [fst snd].
    replace (length order + 1 - Z.to_nat max) with 0 by lia.
    split; [done|]. split; [by split|].
    rewrite size_list_to_set by done. rewrite length_app. simpl. lia.
  - assert (Hlen : Z.of_nat (length order) = max) by lia.
    destruct (order ++ [job_id]) as [|oldest rest] eqn:Ho.
    { by destruct order. }
    assert (Hrest : length rest = length order).
    { apply (f_equal length) in Ho. rewrite length_app in Ho. simpl in Ho. lia. }
    rewrite prune_seen_cons.
    rewrite size_list_to_set by done.
    replace (max <? Z.of_nat (length (oldest :: rest)))%Z with true
      by (symmetry; apply Z.ltb_lt; simpl; lia).
    rewrite decide_True by set_solver.
    apply NoDup_cons in Hnd' as [Hold Hnd'].
    assert (Heq : (list_to_set (oldest :: rest) ∖ {[oldest]} : gset string)
                  = list_to_set rest) by set_solver.
    rewrite Heq, prune_seen_fits.
    2:{ rewrite size_list_to_set by done. lia. }
    cbn [fst snd].
    replace (length order + 1 - Z.to_nat max) with 1 by lia.
    split; [done|]. split; [by split|].
    rewrite size_list_to_set by done. lia.
Qed.

(** A cap of 3 and a cache that holds three ids. *)
Lemma admit_id_window_witness :
  (admit_id 3 {["a"; "b"; "c"]} ["a"; "b"; "c"] "d").2.2 = ["b"; "c"; "d"].
Proof.
  refine (proj1 (admit_id_window 3 {["a"; "b"; "c"]} ["a"; "b"; "c"] "d" _ _ _ _)).
  - done.
  - by vm_compute.
  - split; [|by vm_compute]. apply (bool_decide_unpack _). by vm_compute.
  - apply (bool_decide_unpack _). by vm_compute.
Defined.

(** ** Cleanup and idle passes *)

(** X2. After a cleanup pass at [now], a call less than [cleanup_interval]
    seconds later does nothing. *)
Theorem cleanup_once_per_interval :
  ∀ (now later : Q) (b : bot),
    cleanup_due now b = true →
    (later - now < inject_Z (cleanup_interval b))%Q →
    _cleanup_old_jobs later (_cleanup_old_jobs now b) = _cleanup_old_jobs now b.
Proof.
  intros now later b Hdue Hsoon.
  assert (Hnot : cleanup_due later (_cleanup_old_jobs now b) = false).
  { unfold _cleanup_old_jobs at 1. rewrite Hdue. unfold cleanup_due. cbn.
    destruct (Qle_bool _ _) eqn:E; [|done].
    apply Qle_bool_iff in E. by apply Qlt_not_le in Hsoon. }
  unfold _cleanup_old_jobs at 1. by rewrite Hnot.
Qed.

(** The sample bot a minute after its first cleanup. *)
Lemma cleanup_once_per_interval_witness :
  _cleanup_old_jobs Sample.t1 (_cleanup_old_jobs Sample.t0 (init_bot true))
  = _cleanup_old_jobs Sample.t0 (init_bot true).
Proof.
  apply cleanup_once_per_interval; by vm_compute.
Defined.

Lemma idle_fold results c :
  Forall nothing_scraped results →
  foldl (λ c scraped, scrape_and_emit scraped c) c results = c.
Proof.
  induction 1 as [|scraped results Hs _ IH]; [done|]. simpl.
  assert (Hc : scrape_and_emit scraped c = c).
  { unfold scrape_and_emit. destruct (scraper_ok (cycle_bot c)); [|done].
    by destruct Hs as [-> | ->]. }
  by rewrite Hc.
Qed.

(** X3. A cycle in which every category fails or returns nothing hands no
    batch to [on_new_jobs] and leaves the bot as it was: the snapshot of
    the previous cycle stays. *)
Theorem idle_cycle_keeps_bot :
  ∀ (results : list (option (list job))) (b : bot),
    scraper_ok b = true →
    Forall nothing_scraped results →
    _scrape_and_process_sync results b = ([], b).
Proof.
  intros results b Hsc Hidle. unfold _scrape_and_process_sync. rewrite Hsc. simpl.
  by rewrite idle_fold.
Qed.

(** Two categories, one that raised and one with an empty page. *)
Lemma idle_cycle_keeps_bot_witness :
  _scrape_and_process_sync [None; Some []] Sample.twice = ([], Sample.twice).
Proof.
  apply idle_cycle_keeps_bot; [by vm_compute|].
  constructor; [by left|]. constructor; [by right|]. constructor.
Defined.

(** X4. While the bot is paused the passes of the loop neither scrape nor
    clean up: any number of them leave the bot as it was. *)
Theorem paused_passes_keep_bot :
  ∀ (envs : list pass_env) (b : bot),
    is_paused b = true → run (LoopPass <$> envs) b = b.
Proof.
  intros envs b Hp. induction envs as [|env envs IH]; [done|].
  change (run (LoopPass <$> env :: envs) b)
    with (run (LoopPass <$> envs) (state_after (loop_pass env b))).
  assert (Hs : state_after (loop_pass env b) = b).
  { unfold loop_pass. rewrite Hp. simpl. unfold wait_next.
    destruct (wait_raises env) as [e|]; [|done]. by destruct (is_Exception e). }
  by rewrite Hs.
Qed.

(** The sample bot, paused, through two passes that would scrape. *)
Lemma paused_passes_keep_bot_witness :
  let b := pause Sample.t3 Sample.twice in
  run [LoopPass Sample.third_pass; LoopPass Sample.boom] b = b.
Proof.
  intros b. apply (paused_passes_keep_bot [Sample.third_pass; Sample.boom] b).
  by vm_compute.
Defined.

(** ** Counters and status history *)

Lemma tallies_ok_frame b b' : tallies_of b' = tallies_of b → tallies_ok b → tallies_ok b'.
Proof. unfold tallies_of, tallies_ok. intros [= -> -> -> ->]. done. Qed.

Lemma tallies_of_merge batch b : tallies_of (merge batch b) = tallies_of b.
Proof. unfold merge. by destruct (dedup_loop _ _ _ _). Qed.

Lemma tallies_of_admit_jobs category_jobs b :
  tallies_of (admit_jobs category_jobs b).2 = tallies_of b.
Proof.
  unfold admit_jobs.
  apply (foldl_invariant (λ acc, tallies_of acc.2 = tallies_of b)); [done|].
  intros [batch b0] job Hb0. unfold admit_job.
  by destruct (admit_id _ _ _ _) as [[|] ?].
Qed.

Lemma tallies_of_emit batch b : tallies_of (emit batch b).2 = tallies_of b.
Proof. unfold emit. destruct batch; [done|]. by destruct (filter _ _). Qed.

Lemma tallies_of_rebuild aggregated b : tallies_of (rebuild aggregated b) = tallies_of b.
Proof. by destruct aggregated. Qed.

Lemma tallies_of_cleanup now b : tallies_of (_cleanup_old_jobs now b) = tallies_of b.
Proof. unfold _cleanup_old_jobs. by destruct (cleanup_due now b). Qed.

Lemma tallies_ok_ingest category_jobs b :
  tallies_ok b → tallies_ok (ingest category_jobs b).2.
Proof.
  intros Hok. unfold ingest.
  pose proof (tallies_of_admit_jobs category_jobs b) as Ha.
  destruct (admit_jobs category_jobs b) as [[|r batch] b1]; simpl in Ha.
  - by apply (tallies_ok_frame b).
  - cbn [snd]. eapply tallies_ok_frame; [apply tallies_of_merge|].
    apply (tallies_ok_frame b b1 Ha) in Hok.
    destruct Hok as (Hu & He & Hh). split; [|split]; [cbn; lia|done|done].
Qed.

Lemma tallies_ok_scrape_and_emit scraped c :
  tallies_ok (cycle_bot c) → tallies_ok (cycle_bot (scrape_and_emit scraped c)).
Proof.
  intros Hok. unfold scrape_and_emit.
  destruct (scraper_ok (cycle_bot c)); simpl; [|done].
  destruct scraped as [[|j jobs]|]; [done| |done].
  unfold alloc.
  match goal with |- context [ingest ?cj ?b0] =>
    pose proof (tallies_ok_ingest cj b0 Hok) as Hi; destruct (ingest cj b0) as [batch b1] end.
  pose proof (tallies_of_emit batch b1) as He.
  destruct (emit batch b1) as [truly b2]. simpl in *.
  by apply (tallies_ok_frame b1).
Qed.

Lemma tallies_ok_record_error e b : tallies_ok b → tallies_ok (record_error e b).
Proof. intros (Hu & He & Hh). split; [|split]; [done|cbn; lia|done]. Qed.

Lemma tallies_ok_cycle results b :
  tallies_ok b → tallies_ok (_scrape_and_process_sync results b).2.
Proof.
  intros Hok. unfold _scrape_and_process_sync.
  destruct (scraper_ok b); cbn [negb snd].
  - eapply tallies_ok_frame; [apply tallies_of_rebuild|].
    apply (foldl_invariant (λ c, tallies_ok (cycle_bot c))); [done|].
    intros c scraped. apply tallies_ok_scrape_and_emit.
  - destruct Hok as (Hu & He & Hh). split; [|split]; [done|cbn; lia|done].
Qed.

Lemma length_slice_last {A} (l : list A) n : (length (slice_last l n) ≤ n)%nat.
Proof. unfold slice_last. rewrite length_drop. lia. Qed.

Lemma tallies_ok_log now status b : tallies_ok b → tallies_ok (_log_status_change now status b).
Proof.
  intros (Hu & He & Hh). split; [done|]. split; [done|].
  unfold _log_status_change. cbn [status_history set_status_history].
  destruct (100 <? _)%nat eqn:E.
  - apply length_slice_last.
  - by apply Nat.ltb_ge in E.
Qed.

(** [start] case by case. *)
Lemma start_running now b : is_running b = true → start now b = Returned b.
Proof. intros Hr. unfold start. by rewrite Hr. Qed.

Lemma start_without_scraper now b :
  is_running b = false → scraper_ok b = false →
  start now b = Raised (OtherException "Scraper not initialized")
                       (set_is_paused false (set_is_running false b)).
Proof. intros Hr Hs. unfold start. by rewrite Hr, Hs. Qed.

Lemma start_fresh now b :
  is_running b = false → scraper_ok b = true →
  start now b =
  Returned
    (set_scraping_thread (Some true)
       (_log_status_change now "STARTED"
          (set_last_error None (set_error_count 0 (set_seen_job_order []
             (set_seen_job_ids ∅ (set_unread_count 0 (set_jobs_found 0
                (set_start_time (Some now) (set_is_paused false
                   (set_is_running true b))))))))))).
Proof. intros Hr Hs. unfold start. rewrite Hr, Hs. reflexivity. Qed.

Lemma stop_unfold now joined b :
  stop now joined b =
  _log_status_change now "STOPPED"
    (set_last_scrape_time None (set_start_time None (set_unread_count 0
       (set_jobs_found 0 (set_current_jobs [] (set_seen_job_ids ∅
          (match scraping_thread b with
           | Some true =>
               set_scraping_thread (Some (negb joined))
                                   (set_is_paused false (set_is_running false b))
           | _ => set_is_paused false (set_is_running false b)
           end))))))).
Proof. reflexivity. Qed.

Lemma tallies_ok_thread v b : tallies_ok b → tallies_ok (set_scraping_thread v b).
Proof. intros Hok. apply (tallies_ok_frame b); [reflexivity|exact Hok]. Qed.

Lemma tallies_ok_flags r p b :
  tallies_ok b → tallies_ok (set_is_paused p (set_is_running r b)).
Proof. intros Hok. apply (tallies_ok_frame b); [reflexivity|exact Hok]. Qed.

Lemma tallies_ok_start_reset now b :
  tallies_ok b →
  tallies_ok (set_last_error None (set_error_count 0 (set_seen_job_order []
                (set_seen_job_ids ∅ (set_unread_count 0 (set_jobs_found 0
                   (set_start_time (Some now) (set_is_paused false
                      (set_is_running true b))))))))).
Proof.
  intros (_ & _ & Hh). destruct b.
  split; [|split]; [cbn; lia|cbn; lia|exact Hh].
Qed.

Lemma tallies_ok_stop_reset b :
  tallies_ok b →
  tallies_ok (set_last_scrape_time None (set_start_time None (set_unread_count 0
                (set_jobs_found 0 (set_current_jobs [] (set_seen_job_ids ∅ b)))))).
Proof.
  intros (_ & He & Hh). destruct b.
  split; [|split]; [cbn; lia|exact He|exact Hh].
Qed.

Lemma tallies_ok_start now b : tallies_ok b → tallies_ok (state_of (start now b)).
Proof.
  intros Hok. destruct (is_running b) eqn:Hr.
  { rewrite start_running by exact Hr. exact Hok. }
  destruct (scraper_ok b) eqn:Hs.
  - rewrite start_fresh by assumption.
    apply tallies_ok_thread, tallies_ok_log, tallies_ok_start_reset. exact Hok.
  - rewrite start_without_scraper by assumption.
    apply tallies_ok_flags. exact Hok.
Qed.

Lemma tallies_ok_stop now joined b : tallies_ok b → tallies_ok (stop now joined b).
Proof.
  intros Hok. rewrite stop_unfold.
  apply tallies_ok_log, tallies_ok_stop_reset.
  destruct (scraping_thread b) as [[|]|].
  - apply tallies_ok_thread, tallies_ok_flags. exact Hok.
  - apply tallies_ok_flags. exact Hok.
  - apply tallies_ok_flags. exact Hok.
Qed.

Lemma step_tallies_ok o b : tallies_ok b → tallies_ok (step o b).
Proof.
  intros Hok. destruct o; cbn [step].
  - done.
  - by apply tallies_ok_start.
  - by apply tallies_ok_stop.
  - unfold pause. destruct (negb (is_running b)); [done|]. by apply tallies_ok_log.
  - unfold resume. destruct (negb (is_running b)); [done|]. by apply tallies_ok_log.
  - unfold mark_job_as_read. destruct (find_job _ _ _); [|done].
    destruct Hok as (Hu & He & Hh). split; [|split]; [cbn; lia|done|done].
  - done.
  - by apply (tallies_ok_scrape_and_emit scraped (mk_cycle [] [] b)).
  - eapply tallies_ok_frame; [apply tallies_of_rebuild|done].
  - by apply tallies_ok_cycle.
  - eapply tallies_ok_frame; [apply tallies_of_cleanup|done].
  - apply (loop_pass_preserves tallies_ok); try done.
    + apply tallies_ok_cycle.
    + apply tallies_ok_scrape_and_emit.
    + intros now b0. apply tallies_ok_frame, tallies_of_cleanup.
    + apply tallies_ok_record_error.
  - unfold fatal_handler. destruct (is_Exception e); [|done].
    destruct Hok as (Hu & He & Hh). destruct b.
    split; [|split]; cbn in *; [done|lia|done].
Qed.

(** X5. From the initial state and through any sequence of operations the
    unread counter lies between zero and the number of jobs found and the
    error counter is never negative. *)
Theorem counters_in_range :
  ∀ (scraper : bool) (ops : list op),
    let b := run ops (init_bot scraper) in
    (0 ≤ unread_count b ≤ jobs_found b)%Z ∧ (0 ≤ error_count b)%Z.
Proof.
  intros scraper ops b.
  assert (Hok : tallies_ok b).
  { subst b. unfold run. apply foldl_invariant.
    - split; [|split]; simpl; lia.
    - intros b o. apply step_tallies_ok. }
  destruct Hok as (Hu & He & _). done.
Qed.

(** X6. From the initial state and through any sequence of operations the
    status history holds at most 100 entries. *)
Theorem status_history_bounded :
  ∀ (scraper : bool) (ops : list op),
    (length (status_history (run ops (init_bot scraper))) ≤ 100)%nat.
Proof.
  intros scraper ops.
  assert (Hok : tallies_ok (run ops (init_bot scraper))).
  { unfold run. apply foldl_invariant.
    - split; [|split]; simpl; lia.
    - intros b o. apply step_tallies_ok. }
  apply Hok.
Qed.

(** ** Emission *)





(** ** The order of the sort key *)

Lemma ltb_lt (s1 s2 : string) :
  String.ltb s1 s2 = true ↔ OrderedTypeEx.String_as_OT.lt s1 s2.
Proof.
  rewrite <- OrderedTypeEx.String_as_OT.cmp_lt.
  unfold String.ltb, OrderedTypeEx.String_as_OT.cmp.
  destruct (String.compare s1 s2); split; congruence.
Qed.

Lemma ltb_irrefl (s : string) : String.ltb s s = false.
Proof.
  unfold String.ltb. pose proof (String.compare_antisym s s) as H.
  by destruct (String.compare s s).
Qed.

Lemma ltb_trans (s1 s2 s3 : string) :
  String.ltb s1 s2 = true → String.ltb s2 s3 = true → String.ltb s1 s3 = true.
Proof.
  rewrite !ltb_lt. apply OrderedTypeEx.String_as_OT.lt_trans.
Qed.

(** Two strings are equal or one is below the other. *)
Lemma ltb_total (s1 s2 : string) :
  String.ltb s1 s2 = true ∨ s1 = s2 ∨ String.ltb s2 s1 = true.
Proof.
  unfold String.ltb. rewrite (String.compare_antisym s2 s1).
  destruct (String.compare s1 s2) eqn:E; simpl; auto.
  right. left. by apply String.compare_eq_iff.
Qed.

Lemma not_ltb_trans (s1 s2 s3 : string) :
  String.ltb s1 s2 = false → String.ltb s2 s3 = false → String.ltb s1 s3 = false.
Proof.
  intros H12 H23. destruct (String.ltb s1 s3) eqn:H13; [|done].
  destruct (ltb_total s2 s3) as [H|[->|H]]; [congruence|congruence|].
  rewrite (ltb_trans s1 s3 s2) in H12; done.
Qed.

#[global] Instance not_older_trans : Transitive not_older.
Proof. intros x y z. apply not_ltb_trans. Qed.

(** ** The sort *)

Section sort_desc.
Context {A : Type} (key : A → string).

#[local] Abbreviation above := (key_not_below key).

Lemma insert_desc_perm x l : insert_desc key x l ≡ₚ x :: l.
Proof.
  induction l as [|y l IH]; simpl; [done|].
  destruct (String.ltb (key x) (key y)); [|done].
  rewrite IH. apply Permutation_swap.
Qed.

Lemma sort_desc_perm l : sort_desc key l ≡ₚ l.
Proof.
  induction l as [|x l IH]; simpl; [done|].
  by rewrite insert_desc_perm, IH.
Qed.

Lemma insert_desc_sorted x l :
  StronglySorted above l → StronglySorted above (insert_desc key x l).
Proof.
  induction 1 as [|y l Hl IH Hy]; simpl.
  - repeat constructor.
  - destruct (String.ltb (key x) (key y)) eqn:E.
    + constructor; [done|].
      rewrite insert_desc_perm. constructor; [|done].
      unfold key_not_below. destruct (ltb_total (key y) (key x)) as [H|[H|H]].
      * pose proof (ltb_trans _ _ _ E H) as Hxx. by rewrite ltb_irrefl in Hxx.
      * rewrite H in E. by rewrite ltb_irrefl in E.
      * destruct (String.ltb (key y) (key x)) eqn:E'; [|done].
        pose proof (ltb_trans _ _ _ E E') as Hxx. by rewrite ltb_irrefl in Hxx.
    + constructor; [by constructor|]. constructor; [done|].
      eapply Forall_impl; [exact Hy|]. intros z Hz. unfold key_not_below in *.
      by apply (not_ltb_trans _ (key y)).
Qed.

Lemma sort_desc_sorted l : StronglySorted above (sort_desc key l).
Proof.
  induction l as [|x l IH]; simpl; [constructor|]. by apply insert_desc_sorted.
Qed.

(** A list that is in order already is left as it is. *)
Lemma sort_desc_id l : StronglySorted above l → sort_desc key l = l.
Proof.
  induction 1 as [|x l Hl IH Hx]; simpl; [done|].
  rewrite IH. destruct Hx as [|y l Hy _]; simpl; [done|].
  unfold key_not_below in Hy. by rewrite Hy.
Qed.
End sort_desc.

Lemma sort_desc_fmap {A B} (f : A → B) (key : B → string) (l : list A) :
  f <$> sort_desc (λ x, key (f x)) l = sort_desc key (f <$> l).
Proof.
  assert (Hins : ∀ x l, f <$> insert_desc (λ x, key (f x)) x l
                        = insert_desc key (f x) (f <$> l)).
  { intros x l0. induction l0 as [|y l0 IH]; csimpl; [done|].
    destruct (String.ltb (key (f x)) (key (f y))); csimpl; [by rewrite IH|done]. }
  induction l as [|x l IH]; csimpl; [done|]. by rewrite Hins, IH.
Qed.

(** ** The object store *)

Lemma set_is_read_idemp j : set_is_read (set_is_read j) = set_is_read j.
Proof. done. Qed.

Lemma get_is_read_set j : get_is_read (set_is_read j) = true.
Proof. done. Qed.

Lemma same_but_read_refl j : same_but_read j j.
Proof. by left. Qed.

Lemma same_but_read_trans j1 j2 j3 :
  same_but_read j1 j2 → same_but_read j2 j3 → same_but_read j1 j3.
Proof.
  intros [->| ->] [->| ->]; try (by left); by right.
Qed.

Lemma same_but_read_id j j' : same_but_read j j' → id j' = id j.
Proof. by intros [->| ->]. Qed.

Lemma same_but_read_posted_at j j' :
  same_but_read j j' → get_posted_at j' = get_posted_at j.
Proof. by intros [->| ->]. Qed.

Lemma same_but_read_timestamp j j' :
  same_but_read j j' → posted_at_timestamp j' = posted_at_timestamp j.
Proof. by intros [->| ->]. Qed.


Lemma length_update h r f : length (update h r f) = length h.
Proof. unfold update. apply length_insert. Qed.

Lemma deref_update_eq h r f :
  r < length h → deref (update h r f) r = f (deref h r).
Proof.
  intros Hr. unfold update, deref. by apply list_lookup_total_insert_eq.
Qed.

Lemma deref_update_ne h r f r' : r' ≠ r → deref (update h r f) r' = deref h r'.
Proof.
  intros Hr. unfold update, deref. by apply list_lookup_total_insert_ne.
Qed.

(** An update through a reference that points nowhere changes nothing. *)
Lemma update_invalid h r f : ¬ r < length h → update h r f = h.
Proof. intros Hr. unfold update. apply list_insert_ge. lia. Qed.

Lemma marks_refl h : marks h h.
Proof. split; [done|]. intros. apply same_but_read_refl. Qed.

Lemma marks_trans h1 h2 h3 : marks h1 h2 → marks h2 h3 → marks h1 h3.
Proof.
  intros [Hl1 H1] [Hl2 H2]. split; [congruence|].
  intros r. by apply (same_but_read_trans _ (deref h2 r)).
Qed.

Lemma marks_update h r : marks h (update h r set_is_read).
Proof.
  split; [apply length_update|]. intros r'.
  destruct (decide (r' = r)) as [->|Hne].
  - destruct (decide (r < length h)).
    + rewrite deref_update_eq by done. by right.
    + rewrite update_invalid by done. by left.
  - rewrite deref_update_ne by done. by left.
Qed.

(** ** The dictionary of the existing jobs *)

Lemma jobs_map_snoc h l e :
  jobs_map h (l ++ [e]) = <[id (deref h e) := e]> (jobs_map h l).
Proof. unfold jobs_map. by rewrite foldl_app. Qed.

Lemma jobs_map_lookup h l k e :
  jobs_map h l !! k = Some e → id (deref h e) = k ∧ e ∈ l.
Proof.
  revert k e. induction l as [|x l IH] using rev_ind; intros k e.
  - unfold jobs_map. simpl. by rewrite lookup_empty.
  - rewrite jobs_map_snoc. destruct (decide (id (deref h x) = k)) as [<-|Hne].
    + rewrite lookup_insert_eq. intros [= <-]. split; [done|]. set_solver.
    + rewrite lookup_insert_ne by done. intros H%IH. set_solver.
Qed.

Lemma last_read_in_snoc existing e k :
  last_read_in (existing ++ [e]) k
  = if decide (id e = k) then get_is_read e else last_read_in existing k.
Proof. unfold last_read_in. by rewrite foldl_app. Qed.

(** The look-up in [existing_jobs_map] is the flag of the last existing
    posting with the id. *)
Lemma was_read_last h l k :
  was_read h (jobs_map h l) k = last_read_in (deref h <$> l) k.
Proof.
  induction l as [|x l IH] using rev_ind; [done|].
  rewrite jobs_map_snoc, fmap_app.
  change (deref h <$> [x]) with [deref h x].
  rewrite last_read_in_snoc. unfold was_read in *. destruct (decide (id (deref h x) = k)) as [<-|Hne].
  - by rewrite lookup_insert_eq.
  - by rewrite lookup_insert_ne.
Qed.

(** With pairwise distinct ids the last posting with an id is the only
    one. *)
Lemma last_read_in_distinct existing k :
  NoDup (id <$> existing) → last_read_in existing k = spec_read_in existing k.
Proof.
  induction existing as [|x l IH] using rev_ind; [done|].
  rewrite fmap_app, last_read_in_snoc. intros Hnd.
  apply NoDup_app in Hnd as (Hl & Hx & _).
  unfold spec_read_in in *. rewrite existsb_app. simpl.
  rewrite orb_false_r, <- IH by done.
  destruct (decide (id x = k)) as [<-|Hne].
  - rewrite bool_decide_eq_true_2 by done. simpl.
    assert (Hnone : ∀ l0, id x ∉ id <$> l0 → last_read_in l0 (id x) = false).
    { clear. induction l0 as [|y l0 IH] using rev_ind; [done|].
      rewrite fmap_app, last_read_in_snoc. intros Hn.
      rewrite decide_False by set_solver. apply IH. set_solver. }
    rewrite Hnone; [done|]. intros Hin. apply (Hx _ Hin). set_solver.
  - rewrite bool_decide_eq_false_2 by done. simpl. by rewrite orb_false_r.
Qed.

(** ** De-duplication *)

Lemma spec_dedup_elem seen l j :
  j ∈ spec_dedup seen l → j ∈ l ∧ id j ∉ seen.
Proof.
  revert seen. induction l as [|x l IH]; intros seen; simpl; [by intros ?%elem_of_nil|].
  case_bool_decide as Hx.
  - intros [? ?]%IH. split; [by right|done].
  - intros [->|[? ?]%IH]%elem_of_cons; [split; [by left|done]|].
    split; [by right|set_solver].
Qed.

Lemma spec_dedup_NoDup seen l : NoDup (id <$> spec_dedup seen l).
Proof.
  revert seen. induction l as [|x l IH]; intros seen; simpl; [constructor|].
  case_bool_decide as Hx; [apply IH|]. csimpl. constructor; [|apply IH].
  intros (j & Hj & Hin)%list_elem_of_fmap.
  apply spec_dedup_elem in Hin as [_ Hin]. set_solver.
Qed.

(** No id is lost. *)
Lemma spec_dedup_complete seen l j :
  j ∈ l → id j ∉ seen → id j ∈ id <$> spec_dedup seen l.
Proof.
  revert seen. induction l as [|x l IH]; intros seen; simpl; [by intros ?%elem_of_nil|].
  intros Hj Hn. case_bool_decide as Hx.
  - apply elem_of_cons in Hj as [->|Hj]; [done|]. by apply IH.
  - csimpl. destruct (decide (id j = id x)) as [->|Hne]; [by left|]. right.
    apply elem_of_cons in Hj as [->|Hj]; [done|]. apply IH; [done|set_solver].
Qed.

Lemma was_read_stable h0 h m (seen : list string) k :
  (∀ k e, m !! k = Some e → id (deref h0 e) = k) →
  (∀ r, deref h r = deref h0 r
        ∨ (id (deref h0 r) ∈ seen ∧ deref h r = set_is_read (deref h0 r))) →
  k ∉ seen → was_read h m k = was_read h0 m k.
Proof.
  intros Hm Hinv Hk. unfold was_read. destruct (m !! k) as [e|] eqn:E; [|done].
  destruct (Hinv e) as [->|[Hin _]]; [done|]. rewrite (Hm _ _ E) in Hin. done.
Qed.

(** The loop over [combined], from a store [h] that differs from [h0] by
    the marks of the ids seen so far. *)
Lemma dedup_loop_spec h0 m :
  (∀ k e, m !! k = Some e → id (deref h0 e) = k) →
  ∀ combined seen h,
    length h = length h0 →
    (∀ r, deref h r = deref h0 r
          ∨ (id (deref h0 r) ∈ seen ∧ deref h r = set_is_read (deref h0 r))) →
    let r := dedup_loop m combined (list_to_set seen) h in
    deref h0 <$> r.1 = spec_dedup seen (deref h0 <$> combined) ∧
    length r.2 = length h0 ∧
    (∀ x, same_but_read (deref h0 x) (deref r.2 x)) ∧
    (∀ x, id (deref h0 x) ∈ seen → deref r.2 x = deref h x) ∧
    (valid_refs h0 combined →
     ∀ x, x ∈ r.1 →
          deref r.2 x = if was_read h0 m (id (deref h0 x))
                        then set_is_read (deref h0 x) else deref h0 x).
Proof.
  intros Hm. induction combined as [|j rest IH]; intros seen h Hlen Hinv.
  - simpl. split; [done|]. split; [done|].
    split; [|split; [done|by intros _ x ?%elem_of_nil]].
    intros x. destruct (Hinv x) as [->|[_ ->]]; [by left|by right].
  - assert (Hid : id (deref h j) = id (deref h0 j)).
    { by destruct (Hinv j) as [->|[_ ->]]. }
    cbn [dedup_loop]. rewrite Hid. csimpl.
    destruct (decide (id (deref h0 j) ∈ (list_to_set seen : gset string))) as [Hin|Hin].
    + rewrite bool_decide_eq_true_2 by set_solver.
      destruct (IH seen h Hlen Hinv) as (Ha & Hb & Hc & Hd & He).
      repeat split; try done. intros Hv. apply He. by inversion Hv.
    + assert (Hin' : id (deref h0 j) ∉ seen) by set_solver.
      rewrite bool_decide_eq_false_2 by done.
      rewrite (was_read_stable h0 h m seen) by done.
      assert (Hj : deref h j = deref h0 j).
      { by destruct (Hinv j) as [->|[? _]]. }
      set (h1 := if was_read h0 m (id (deref h0 j)) then update h j set_is_read else h).
      assert (Hlen1 : length h1 = length h0).
      { unfold h1. case_match; [by rewrite length_update|done]. }
      assert (Hne : ∀ x, id (deref h0 x) ∈ seen → deref h1 x = deref h x).
      { intros x Hx. unfold h1. case_match; [|done].
        apply deref_update_ne. intros ->. done. }
      assert (Hinv1 : ∀ r, deref h1 r = deref h0 r
                ∨ (id (deref h0 r) ∈ id (deref h0 j) :: seen
                   ∧ deref h1 r = set_is_read (deref h0 r))).
      { intros r. unfold h1. case_match; [|destruct (Hinv r) as [?|[? ?]]; [by left|right; set_solver]].
        destruct (decide (r = j)) as [->|Hrj].
        - destruct (decide (j < length h)).
          + right. rewrite deref_update_eq, Hj by done. set_solver.
          + left. by rewrite update_invalid.
        - rewrite deref_update_ne by done.
          destruct (Hinv r) as [?|[? ?]]; [by left|right; set_solver]. }
      specialize (IH (id (deref h0 j) :: seen) h1 Hlen1 Hinv1).
      change (list_to_set (id (deref h0 j) :: seen) : gset string)
        with ({[id (deref h0 j)]} ∪ list_to_set seen : gset string) in IH.
      destruct (dedup_loop m rest ({[id (deref h0 j)]} ∪ list_to_set seen) h1)
        as [d h2] eqn:E.
      cbn [fst snd] in *. destruct IH as (Ha & Hb & Hc & Hd & He).
      repeat split; [by rewrite fmap_cons, Ha|done|done| |].
      * intros x Hx. rewrite Hd by set_solver. by apply Hne.
      * intros Hv x Hx. inversion Hv as [|? ? Hvj Hvr]; subst.
        apply elem_of_cons in Hx as [->|Hx]; [|by apply He].
        rewrite Hd by set_solver. unfold h1. case_match; [|done].
        rewrite deref_update_eq by lia. by rewrite Hj.
Qed.

Lemma fmap_slice_to {A B} (f : A → B) (l : list A) n :
  f <$> slice_to l n = slice_to (f <$> l) n.
Proof. unfold slice_to. rewrite length_fmap. by case_match; rewrite fmap_take. Qed.

Lemma slice_to_take {A} (l : list A) n : ∃ k, slice_to l n = take k l.
Proof. unfold slice_to. case_match; eauto. Qed.

Lemma StronglySorted_take {A} (R : A → A → Prop) (l : list A) k :
  StronglySorted R l → StronglySorted R (take k l).
Proof.
  intros H. revert k. induction H as [|x l Hl IH Hx]; intros [|k]; simpl;
    try constructor; [apply IH|by apply Forall_take].
Qed.

(** The merge, up to its last line, on values. *)
Lemma merge_unfold batch b :
  let m := jobs_map (objects b) (current_jobs b) in
  let r := dedup_loop m (batch ++ current_jobs b) ∅ (objects b) in
  objects (merge batch b) = r.2 ∧
  snapshot (merge batch b)
  = slice_to (sort_desc get_posted_at (deref r.2 <$> r.1)) (max_jobs b).
Proof.
  intros m r. unfold merge, snapshot. fold m. fold r. destruct r as [d h].
  destruct b. simpl. split; [done|].
  rewrite fmap_slice_to. f_equal.
  apply (sort_desc_fmap (deref h) get_posted_at).
Qed.

Lemma merge_loop batch b :
  let h0 := objects b in
  let m := jobs_map h0 (current_jobs b) in
  let r := dedup_loop m (batch ++ current_jobs b) ∅ h0 in
  deref h0 <$> r.1 = spec_dedup [] ((deref h0 <$> batch) ++ snapshot b) ∧
  marks h0 r.2 ∧
  (valid_refs h0 (batch ++ current_jobs b) →
   deref r.2 <$> r.1 = carry_last (snapshot b) <$> (deref h0 <$> r.1)).
Proof.
  intros h0 m r.
  destruct (dedup_loop_spec h0 m (λ k e H, proj1 (jobs_map_lookup _ _ _ _ H))
              (batch ++ current_jobs b) [] h0 eq_refl (λ r, or_introl eq_refl))
    as (Ha & Hb & Hc & _ & He).
  change (list_to_set [] : gset string) with (∅ : gset string) in *. fold r in Ha, Hb, Hc, He.
  repeat split; [by rewrite Ha, fmap_app|done|done|].
  intros Hv. rewrite <- list_fmap_compose. apply list_fmap_ext.
  intros i x Hx. simpl. rewrite (He Hv) by (by eapply list_elem_of_lookup_2).
  unfold carry_last, snapshot, m, h0. by rewrite was_read_last.
Qed.

(** ** The merge and the rebuild on values *)

Lemma sorted_fmap_key {A B} (f : A → B) (key : A → string) (key' : B → string) l :
  (∀ x, key' (f x) = key x) →
  StronglySorted (key_not_below key) l →
  StronglySorted (key_not_below key') (f <$> l).
Proof.
  intros Hk. induction 1 as [|x l Hl IH Hx]; csimpl; constructor; [done|].
  apply Forall_fmap. eapply Forall_impl; [exact Hx|].
  intros y Hy. unfold key_not_below in *. simpl. by rewrite !Hk.
Qed.

Lemma elem_of_slice_to {A} (l : list A) n x : x ∈ slice_to l n → x ∈ l.
Proof.
  destruct (slice_to_take l n) as [k ->]. apply subseteq_take.
Qed.

Lemma valid_refs_perm h l l' : l ≡ₚ l' → valid_refs h l → valid_refs h l'.
Proof. unfold valid_refs. by intros ->. Qed.

(** The loop of the rebuild, from a store [h] that differs from [h0] by
    marks on copies of read jobs. *)
Lemma preserve_read_spec h0 m :
  (∀ k e, m !! k = Some e → id (deref h0 e) = k) →
  ∀ jobs h,
    length h = length h0 →
    (∀ r, deref h r = deref h0 r
          ∨ (was_read h0 m (id (deref h0 r)) = true
             ∧ deref h r = set_is_read (deref h0 r))) →
    let h' := preserve_read m jobs h in
    marks h h' ∧
    (∀ r, deref h' r = deref h0 r
          ∨ (was_read h0 m (id (deref h0 r)) = true
             ∧ deref h' r = set_is_read (deref h0 r))) ∧
    (valid_refs h0 jobs →
     ∀ x, x ∈ jobs →
          deref h' x = if was_read h0 m (id (deref h0 x))
                       then set_is_read (deref h0 x) else deref h0 x).
Proof.
  intros Hm. induction jobs as [|j jobs IH]; intros h Hlen Hinv.
  - simpl. split; [apply marks_refl|]. split; [done|]. by intros _ x ?%elem_of_nil.
  - assert (Hid : id (deref h j) = id (deref h0 j)).
    { by destruct (Hinv j) as [->|[_ ->]]. }
    assert (Hw : was_read h m (id (deref h0 j)) = was_read h0 m (id (deref h0 j))).
    { unfold was_read. destruct (m !! id (deref h0 j)) as [e|] eqn:E; [|done].
      destruct (Hinv e) as [->|[Hr ->]]; [done|].
      rewrite (Hm _ _ E) in Hr. unfold was_read in Hr. rewrite E in Hr.
      by rewrite Hr. }
    unfold preserve_read. cbn [foldl]. rewrite Hid, Hw.
    set (h1 := if was_read h0 m (id (deref h0 j)) then update h j set_is_read else h).
    assert (Hlen1 : length h1 = length h0).
    { unfold h1. case_match; [by rewrite length_update|done]. }
    assert (Hm1 : marks h h1).
    { unfold h1. case_match; [apply marks_update|apply marks_refl]. }
    assert (Hinv1 : ∀ r, deref h1 r = deref h0 r
              ∨ (was_read h0 m (id (deref h0 r)) = true
                 ∧ deref h1 r = set_is_read (deref h0 r))).
    { intros r. unfold h1. case_match eqn:E; [|apply Hinv].
      destruct (decide (r = j)) as [->|Hrj].
      - destruct (decide (j < length h)).
        + right. split; [done|]. rewrite deref_update_eq by done.
          by destruct (Hinv j) as [->|[_ ->]].
        + rewrite update_invalid by done. apply Hinv.
      - rewrite deref_update_ne by done. apply Hinv. }
    assert (Hj1 : j < length h0 → was_read h0 m (id (deref h0 j)) = true →
                  deref h1 j = set_is_read (deref h0 j)).
    { intros Hvj E. unfold h1. rewrite E. rewrite deref_update_eq by lia.
      by destruct (Hinv j) as [->|[_ ->]]. }
    destruct (IH h1 Hlen1 Hinv1) as (Ha & Hb & Hc).
    fold (preserve_read m jobs h1). split; [by apply (marks_trans _ h1)|].
    split; [done|]. intros Hv x Hx. inversion Hv as [|? ? Hvj Hvr]; subst.
    destruct (decide (x ∈ jobs)) as [Hin|Hin]; [by apply Hc|].
    apply elem_of_cons in Hx as [->|Hx]; [|done].
    specialize (Hj1 Hvj).
    destruct (was_read h0 m (id (deref h0 j))) eqn:E.
    + destruct Ha as [_ Ha]. destruct (Ha j) as [->| ->]; by rewrite Hj1 by done.
    + destruct (Hb j) as [->|[? _]]; [done|congruence].
Qed.

Lemma rebuild_unfold aggregated b :
  aggregated ≠ [] →
  let h0 := objects b in
  let sorted := sort_desc (posted_at_key h0) aggregated in
  let h := preserve_read (jobs_map h0 (current_jobs b)) sorted h0 in
  objects (rebuild aggregated b) = h ∧
  snapshot (rebuild aggregated b) = slice_to (deref h <$> sorted) (max_jobs b).
Proof.
  intros Hne h0 sorted h. unfold rebuild, snapshot.
  destruct aggregated as [|x l]; [done|]. fold h0. fold sorted. fold h.
  destruct b. simpl. by rewrite fmap_slice_to.
Qed.

Lemma rebuild_loop aggregated b :
  let h0 := objects b in
  let sorted := sort_desc (posted_at_key h0) aggregated in
  let h := preserve_read (jobs_map h0 (current_jobs b)) sorted h0 in
  marks h0 h ∧
  (valid_refs h0 aggregated →
   deref h <$> sorted
   = carry_last (snapshot b) <$> sort_desc get_posted_at (deref h0 <$> aggregated)).
Proof.
  intros h0 sorted h.
  destruct (preserve_read_spec h0 (jobs_map h0 (current_jobs b))
              (λ k e H, proj1 (jobs_map_lookup _ _ _ _ H))
              sorted h0 eq_refl (λ r, or_introl eq_refl)) as (Ha & _ & Hc).
  fold h in Ha, Hc. split; [done|]. intros Hv.
  rewrite <- (sort_desc_fmap (deref h0) get_posted_at).
  fold (posted_at_key h0). fold sorted.
  rewrite <- list_fmap_compose. apply list_fmap_ext. intros i x Hx. simpl.
  rewrite Hc.
  - unfold carry_last, snapshot, h0. by rewrite was_read_last.
  - apply (valid_refs_perm h0 aggregated); [|done].
    symmetry. apply sort_desc_perm.
  - by eapply list_elem_of_lookup_2.
Qed.

(** X8. After the merge the snapshot is in descending order of
    [posted_at] and its ids are pairwise distinct; each of its entries is a
    dictionary of the batch or of the old snapshot, with at most its read
    flag set; and no dictionary of the store has changed but for read
    flags. *)
Theorem merge_snapshot_ordered :
  ∀ batch b,
    let s := snapshot (merge batch b) in
    newest_first s ∧ NoDup (id <$> s) ∧
    (∀ j, j ∈ s → ∃ x, x ∈ batch ++ current_jobs b
                       ∧ same_but_read (deref (objects b) x) j) ∧
    marks (objects b) (objects (merge batch b)).
Proof.
  intros batch b s.
  destruct (merge_unfold batch b) as [Ho Hs].
  destruct (merge_loop batch b) as (Ha & Hm & _).
  fold s in Hs. cbn zeta in *.
  set (r := dedup_loop (jobs_map (objects b) (current_jobs b))
                       (batch ++ current_jobs b) ∅ (objects b)) in *.
  assert (Hids : id <$> (deref r.2 <$> r.1) = id <$> (deref (objects b) <$> r.1)).
  { rewrite <- !list_fmap_compose. apply list_fmap_ext. intros i x _. simpl.
    apply same_but_read_id, Hm. }
  destruct (slice_to_take (sort_desc get_posted_at (deref r.2 <$> r.1)) (max_jobs b))
    as [k Hk].
  split; [|split; [|split]].
  - rewrite Hs, Hk. apply StronglySorted_take, sort_desc_sorted.
  - rewrite Hs, Hk, fmap_take.
    apply (sublist_NoDup _ (id <$> sort_desc get_posted_at (deref r.2 <$> r.1)));
      [|apply sublist_take].
    rewrite sort_desc_perm, Hids, Ha. apply spec_dedup_NoDup.
  - intros j Hj. rewrite Hs in Hj. apply elem_of_slice_to in Hj.
    rewrite sort_desc_perm in Hj.
    apply list_elem_of_fmap in Hj as (x & -> & Hx).
    assert (Hx0 : deref (objects b) x ∈ deref (objects b) <$> r.1).
    { apply list_elem_of_fmap. eauto. }
    rewrite Ha in Hx0. apply spec_dedup_elem in Hx0 as [Hx0 _].
    unfold snapshot in Hx0.
    rewrite <- (fmap_app (deref (objects b)) batch (current_jobs b)) in Hx0.
    apply list_elem_of_fmap in Hx0 as (y & Hy & Hin).
    exists y. split; [done|]. rewrite <- Hy. apply Hm.
  - by rewrite Ho.
Qed.

(** X9. When every reference points into the store, the merge leaves the
    snapshot the following value: batch before old snapshot, first
    occurrence of each id kept, read flag set where the last old posting
    with the id was read, descending order of [posted_at], the [max_jobs]
    slice. With pairwise distinct ids in the old snapshot and a cap that is
    not negative this is the merge of the specification. *)
Theorem merge_on_values :
  ∀ batch b,
    valid_refs (objects b) (batch ++ current_jobs b) →
    let existing := snapshot b in
    let incoming := deref (objects b) <$> batch in
    snapshot (merge batch b)
    = slice_to (sort_desc get_posted_at
                  (carry_last existing <$> spec_dedup [] (incoming ++ existing)))
               (max_jobs b) ∧
    (NoDup (id <$> existing) → (0 ≤ max_jobs b)%Z →
     snapshot (merge batch b) = spec_merge existing incoming (Z.to_nat (max_jobs b))).
Proof.
  intros batch b Hv existing incoming.
  destruct (merge_unfold batch b) as [_ Hs].
  destruct (merge_loop batch b) as (Ha & _ & Hc).
  cbn zeta in *. rewrite (Hc Hv), Ha in Hs. fold existing incoming in Hs.
  split; [done|]. intros Hnd Hmax. rewrite Hs. unfold spec_merge, slice_to.
  rewrite (proj2 (Z.leb_le 0 (max_jobs b)) Hmax). do 2 f_equal.
  apply list_fmap_ext. intros i x _. unfold carry_last, spec_carry_read.
  by rewrite last_read_in_distinct.
Qed.

(** X10. The rebuild at the end of a cycle that found jobs: the new
    snapshot is the [max_jobs] slice of this cycle's dictionaries in
    descending order of [posted_at], duplicates included, in that order
    whatever the references; with valid references each has its read flag
    set exactly when it was set already or the last old posting with its id
    was read, so with pairwise distinct old ids a posting the user had read
    is read in the new snapshot. *)
Theorem rebuild_on_values :
  ∀ aggregated b,
    aggregated ≠ [] →
    let existing := snapshot b in
    let found := deref (objects b) <$> aggregated in
    let s := snapshot (rebuild aggregated b) in
    newest_first s ∧
    marks (objects b) (objects (rebuild aggregated b)) ∧
    (valid_refs (objects b) aggregated →
     s = slice_to (carry_last existing <$> sort_desc get_posted_at found) (max_jobs b) ∧
     (NoDup (id <$> existing) →
      ∀ j, j ∈ s → spec_read_in existing (id j) = true → get_is_read j = true)).
Proof.
  intros aggregated b Hne existing found s.
  destruct (rebuild_unfold aggregated b Hne) as [Ho Hs].
  destruct (rebuild_loop aggregated b) as [Hm Hc].
  fold s in Hs. cbn zeta in *.
  set (sorted := sort_desc (posted_at_key (objects b)) aggregated) in *.
  set (h := preserve_read (jobs_map (objects b) (current_jobs b)) sorted (objects b)) in *.
  split; [|split; [by rewrite Ho|]].
  - rewrite Hs. destruct (slice_to_take (deref h <$> sorted) (max_jobs b)) as [k ->].
    apply StronglySorted_take.
    apply (sorted_fmap_key (deref h) (posted_at_key (objects b)) get_posted_at).
    + intros x. apply same_but_read_posted_at, Hm.
    + apply sort_desc_sorted.
  - intros Hv. rewrite (Hc Hv) in Hs. fold existing found in Hs.
    split; [done|]. intros Hnd j Hj Hr. rewrite Hs in Hj.
    apply elem_of_slice_to, list_elem_of_fmap in Hj as (x & -> & _).
    unfold carry_last in *. rewrite last_read_in_distinct in Hr |- * by done.
    destruct (spec_read_in existing (id x)) eqn:E; [done|].
    cbv iota in Hr. congruence.
Qed.

(** The re-scraped copy of a read posting and a new posting are merged
    into the sample snapshot. *)
Lemma merge_on_values_witness :
  let b := Shelf.shelf in
  snapshot (merge [2; 3] b)
  = spec_merge (snapshot b) (deref (objects b) <$> [2; 3]) (Z.to_nat (max_jobs b)).
Proof.
  intros b. refine (proj2 (merge_on_values [2; 3] b _) _ _).
  - apply (bool_decide_unpack _). by vm_compute.
  - apply (bool_decide_unpack _). by vm_compute.
  - by vm_compute.
Defined.

Lemma rebuild_on_values_witness :
  newest_first (snapshot (rebuild [2; 3] Shelf.shelf)).
Proof.
  by apply (rebuild_on_values [2; 3] Shelf.shelf).
Defined.

(** ** The store over time *)

Lemma keeps_refl h : keeps_dictionaries h h.
Proof. split; [done|]. intros. apply same_but_read_refl. Qed.

Lemma keeps_trans h1 h2 h3 :
  keeps_dictionaries h1 h2 → keeps_dictionaries h2 h3 → keeps_dictionaries h1 h3.
Proof.
  intros [Hl1 H1] [Hl2 H2]. split; [lia|]. intros r Hr.
  apply (same_but_read_trans _ (deref h2 r)); [by apply H1|apply H2; lia].
Qed.

Lemma marks_keeps h h' : marks h h' → keeps_dictionaries h h'.
Proof. intros [Hl H]. split; [lia|]. intros r _. apply H. Qed.


Lemma valid_refs_length h h' l :
  length h ≤ length h' → valid_refs h l → valid_refs h' l.
Proof.
  intros Hl H. unfold valid_refs in *. eapply Forall_impl; [exact H|].
  intros r Hr. simpl in *. lia.
Qed.

Lemma valid_refs_sub h l l' : l' ⊆ l → valid_refs h l → valid_refs h l'.
Proof.
  unfold valid_refs. rewrite !Forall_forall. intros Hsub H r Hr. by apply H, Hsub.
Qed.

Lemma valid_refs_alloc h js : valid_refs (h ++ js) (seq (length h) (length js)).
Proof.
  unfold valid_refs. apply Forall_forall. intros r Hr%elem_of_seq.
  rewrite length_app. lia.
Qed.

Lemma dedup_loop_sub m combined seen h x :
  x ∈ (dedup_loop m combined seen h).1 → x ∈ combined.
Proof.
  revert seen h. induction combined as [|j rest IH]; intros seen h; cbn [dedup_loop].
  - done.
  - cbv zeta. destruct (decide _).
    + intros Hx%IH. by right.
    + destruct (dedup_loop m rest _ _) as [d h2] eqn:E. cbn [fst].
      intros [->|Hx]%elem_of_cons; [by left|]. right.
      eapply IH. by erewrite E.
Qed.

(** *** What each operation does to the store *)

Lemma store_of_settings s b : store_of (set_settings s b) = store_of b.
Proof. done. Qed.

Lemma store_of_log now status b : store_of (_log_status_change now status b) = store_of b.
Proof. done. Qed.

Lemma store_of_start now b : store_of (state_of (start now b)) = store_of b.
Proof.
  destruct b. unfold start, store_of. simpl. repeat case_match; reflexivity.
Qed.


Lemma current_jobs_stop now joined b : current_jobs (stop now joined b) = [].
Proof.
  destruct b. unfold stop. simpl. repeat case_match; reflexivity.
Qed.

Lemma store_of_pause now b : store_of (pause now b) = store_of b.
Proof. unfold pause. by destruct (is_running b). Qed.

Lemma store_of_resume now b : store_of (resume now b) = store_of b.
Proof. unfold resume. by destruct (is_running b). Qed.

Lemma store_of_record_error e b : store_of (record_error e b) = store_of b.
Proof. done. Qed.

Lemma store_of_fatal e b : store_of (state_of (fatal_handler e b)) = store_of b.
Proof. unfold fatal_handler. by destruct (is_Exception e). Qed.

Lemma store_of_admit_jobs category_jobs b :
  store_of (admit_jobs category_jobs b).2 = store_of b
  ∧ (admit_jobs category_jobs b).1 ⊆ category_jobs.
Proof.
  unfold admit_jobs. induction category_jobs as [|j l IH] using rev_ind; [done|].
  rewrite foldl_app. cbn [foldl]. destruct (foldl admit_job ([], b) l) as [batch b0].
  cbn [fst snd] in IH. destruct IH as [IH1 IH2]. unfold admit_job.
  destruct (admit_id _ _ _ _) as [[|] ?]; cbn [fst snd].
  - split; [by rewrite <- IH1|]. set_solver.
  - split; [done|]. set_solver.
Qed.

Lemma store_of_emit batch b : store_of (emit batch b).2 = store_of b.
Proof.
  unfold emit. destruct batch; [done|]. by destruct (filter _ _).
Qed.

Lemma objects_cleanup now b : objects (_cleanup_old_jobs now b) = objects b.
Proof. unfold _cleanup_old_jobs. by destruct (cleanup_due now b). Qed.

Lemma current_jobs_cleanup now b : current_jobs (_cleanup_old_jobs now b) ⊆ current_jobs b.
Proof.
  unfold _cleanup_old_jobs. destruct (cleanup_due now b); [|done]. cbn.
  intros x Hx%list_elem_of_In%filter_In. apply list_elem_of_In. tauto.
Qed.

Lemma current_jobs_merge batch b : current_jobs (merge batch b) ⊆ batch ++ current_jobs b.
Proof.
  unfold merge.
  pose proof (dedup_loop_sub (jobs_map (objects b) (current_jobs b))
                (batch ++ current_jobs b) ∅ (objects b)) as Hsub.
  destruct (dedup_loop _ _ _ _) as [d h]. cbn [fst] in Hsub.
  intros x Hx. apply Hsub. destruct b. cbn in Hx.
  apply elem_of_slice_to in Hx. by rewrite sort_desc_perm in Hx.
Qed.

Lemma current_jobs_rebuild aggregated b :
  current_jobs (rebuild aggregated b) ⊆ aggregated ++ current_jobs b.
Proof.
  unfold rebuild. destruct aggregated as [|a l] eqn:E; [done|]. rewrite <- E.
  destruct b. cbn.
  intros x Hx%elem_of_slice_to. rewrite sort_desc_perm in Hx. set_solver.
Qed.

(** *** No dictionary changes but for its read flag *)



Lemma merge_marks batch b : marks (objects b) (objects (merge batch b)).
Proof.
  destruct (merge_unfold batch b) as [-> _]. by destruct (merge_loop batch b) as (_ & ? & _).
Qed.

Lemma rebuild_marks aggregated b : marks (objects b) (objects (rebuild aggregated b)).
Proof.
  destruct aggregated as [|a l]; [apply marks_refl|].
  destruct (rebuild_unfold (a :: l) b) as [-> _]; [done|].
  by destruct (rebuild_loop (a :: l) b) as [? _].
Qed.

Lemma keeps_ingest category_jobs b :
  keeps_dictionaries (objects b) (objects (ingest category_jobs b).2).
Proof.
  unfold ingest. destruct (store_of_admit_jobs category_jobs b) as [Hs _].
  destruct (admit_jobs category_jobs b) as [batch b0]. cbn [snd] in Hs.
  injection Hs as Ho _. rewrite <- Ho.
  destruct batch as [|x l]; [apply keeps_refl|]. cbn [snd].
  eapply keeps_trans; [|apply marks_keeps, merge_marks]. destruct b0. apply keeps_refl.
Qed.






(** *** The references of the snapshot stay valid *)

Lemma refs_valid_frame b b' : store_of b' = store_of b → refs_valid b → refs_valid b'.
Proof. unfold refs_valid. by intros [= -> ->]. Qed.

Lemma refs_valid_stop now joined b : refs_valid (stop now joined b).
Proof. unfold refs_valid. rewrite current_jobs_stop. constructor. Qed.

Lemma refs_valid_mark_read job_id b : refs_valid b → refs_valid (mark_job_as_read job_id b).
Proof.
  unfold mark_job_as_read. destruct (find_job _ _ _) as [r|]; [|done].
  intros Hv. destruct b. unfold refs_valid in *. cbn in *.
  apply (valid_refs_length objects0); [by rewrite length_update|done].
Qed.

Lemma refs_valid_cleanup now b : refs_valid b → refs_valid (_cleanup_old_jobs now b).
Proof.
  unfold refs_valid. rewrite objects_cleanup.
  apply valid_refs_sub, current_jobs_cleanup.
Qed.

Lemma valid_refs_app h l1 l2 : valid_refs h l1 → valid_refs h l2 → valid_refs h (l1 ++ l2).
Proof. unfold valid_refs. intros. by apply Forall_app. Qed.

Lemma refs_valid_merge batch b :
  valid_refs (objects b) batch → refs_valid b → refs_valid (merge batch b).
Proof.
  intros Hb Hv. unfold refs_valid.
  apply (valid_refs_sub _ (batch ++ current_jobs b)); [apply current_jobs_merge|].
  apply (valid_refs_length (objects b)); [|by apply valid_refs_app].
  destruct (merge_marks batch b) as [-> _]. done.
Qed.

Lemma refs_valid_rebuild aggregated b :
  valid_refs (objects b) aggregated → refs_valid b → refs_valid (rebuild aggregated b).
Proof.
  intros Hb Hv. unfold refs_valid.
  apply (valid_refs_sub _ (aggregated ++ current_jobs b)); [apply current_jobs_rebuild|].
  apply (valid_refs_length (objects b)); [|by apply valid_refs_app].
  destruct (rebuild_marks aggregated b) as [-> _]. done.
Qed.

Lemma refs_valid_ingest category_jobs b :
  valid_refs (objects b) category_jobs → refs_valid b →
  refs_valid (ingest category_jobs b).2.
Proof.
  intros Hc Hv. unfold ingest.
  destruct (store_of_admit_jobs category_jobs b) as [Hs Hsub].
  destruct (admit_jobs category_jobs b) as [batch b0]. cbn [fst snd] in Hs, Hsub.
  injection Hs as Ho Hcur.
  assert (Hv0 : refs_valid b0) by (unfold refs_valid; by rewrite Ho, Hcur).
  destruct batch as [|x l] eqn:E; [done|]. rewrite <- E in *. cbn [snd].
  set (sorted := sort_desc (posted_at_key (objects b0)) batch).
  assert (Hsorted : valid_refs (objects b0) sorted).
  { apply (valid_refs_perm _ batch); [symmetry; apply sort_desc_perm|].
    rewrite Ho. by apply (valid_refs_sub _ category_jobs). }
  apply refs_valid_merge; destruct b0; [exact Hsorted|exact Hv0].
Qed.

Lemma cycle_valid_scrape_and_emit scraped c :
  cycle_valid c → cycle_valid (scrape_and_emit scraped c).
Proof.
  intros [Ha Hv]. unfold scrape_and_emit.
  destruct (scraper_ok (cycle_bot c)); [|done].
  destruct scraped as [[|j jobs]|]; try done. cbn [negb alloc].
  set (h := objects (cycle_bot c)) in *.
  set (fresh := seq (length h) (length (j :: jobs))).
  set (b1 := set_objects (h ++ j :: jobs) (cycle_bot c)).
  assert (Ho1 : objects b1 = h ++ j :: jobs) by (unfold b1; by destruct (cycle_bot c)).
  assert (Hc1 : current_jobs b1 = current_jobs (cycle_bot c))
    by (unfold b1; by destruct (cycle_bot c)).
  assert (Hf : valid_refs (objects b1) fresh) by (rewrite Ho1; apply valid_refs_alloc).
  assert (Hv1 : refs_valid b1).
  { unfold refs_valid. rewrite Ho1, Hc1.
    apply (valid_refs_length h); [rewrite length_app; lia|done]. }
  pose proof (refs_valid_ingest fresh b1 Hf Hv1) as Hi.
  pose proof (keeps_ingest fresh b1) as [Hl _].
  destruct (ingest fresh b1) as [batch b2]. cbn [snd] in Hi, Hl.
  pose proof (store_of_emit batch b2) as He.
  destruct (emit batch b2) as [sent b3]. cbn [snd] in He.
  split; cbn [cycle_bot aggregated_jobs].
  - injection He as He _. rewrite He.
    apply (valid_refs_length (objects b1)); [done|].
    apply valid_refs_app; [|done].
    rewrite Ho1. apply (valid_refs_length h); [rewrite length_app; lia|done].
  - by apply (refs_valid_frame b2).
Qed.

Lemma refs_valid_scrape_and_emit scraped c :
  refs_valid (cycle_bot c) → refs_valid (cycle_bot (scrape_and_emit scraped c)).
Proof.
  intros Hv.
  assert (Hc : cycle_valid (mk_cycle [] (emitted c) (cycle_bot c))).
  { split; [constructor|done]. }
  apply (cycle_valid_scrape_and_emit scraped) in Hc as [_ Hc].
  revert Hc. unfold scrape_and_emit. cbn [cycle_bot].
  destruct (scraper_ok (cycle_bot c)); [|done].
  destruct scraped as [[|j jobs]|]; try done. cbn [negb].
  destruct (alloc _ _) as [fresh h]. destruct (ingest _ _) as [batch b2].
  by destruct (emit _ _) as [sent b3].
Qed.

Lemma refs_valid_cycle results b :
  refs_valid b → refs_valid (_scrape_and_process_sync results b).2.
Proof.
  intros Hv. unfold _scrape_and_process_sync.
  destruct (scraper_ok b); cbn [negb snd]; [|by destruct b].
  assert (Hc : cycle_valid (foldl (λ c scraped, scrape_and_emit scraped c)
                                  (mk_cycle [] [] b) results)).
  { apply (foldl_invariant cycle_valid); [split; [constructor|done]|].
    intros c scraped. apply cycle_valid_scrape_and_emit. }
  destruct Hc as [Ha Hb]. by apply refs_valid_rebuild.
Qed.

Lemma refs_valid_step o b : whole o → refs_valid b → refs_valid (step o b).
Proof.
  intros Hw Hv. destruct o; cbn [step].
  - done.
  - apply (refs_valid_frame b); [apply store_of_start|done].
  - apply refs_valid_stop.
  - apply (refs_valid_frame b); [apply store_of_pause|done].
  - apply (refs_valid_frame b); [apply store_of_resume|done].
  - by apply refs_valid_mark_read.
  - destruct b. constructor.
  - by apply (refs_valid_scrape_and_emit scraped (mk_cycle [] [] b)).
  - done.
  - by apply refs_valid_cycle.
  - by apply refs_valid_cleanup.
  - apply (loop_pass_preserves refs_valid); try done.
    + intros results b0. apply refs_valid_cycle.
    + apply refs_valid_scrape_and_emit.
    + intros now b0. apply refs_valid_cleanup.
  - apply (refs_valid_frame b); [apply store_of_fatal|done].
Qed.

(** X12. Every job of the snapshot is a dictionary of the store, and stays
    so through the operations of the handlers and of the loop: each
    reference of [current_jobs] points into the store. The bare rebuild is
    left out, its argument being any list; the rebuild that ends a cycle
    gets the dictionaries the cycle has stored. *)
Theorem snapshot_refs_valid :
  ∀ (ops : list op) (b : bot),
    refs_valid b → Forall whole ops → refs_valid (run ops b).
Proof.
  intros ops b Hv Hw. revert b Hv. induction Hw as [|o ops Ho _ IH]; intros b Hv; [done|].
  apply IH. by apply refs_valid_step.
Qed.

Lemma snapshot_refs_valid_witness :
  refs_valid (run [Start Sample.t0; LoopPass Sample.third_pass; MarkRead "2"]
                  (init_bot true)).
Proof.
  apply (snapshot_refs_valid [Start Sample.t0; LoopPass Sample.third_pass; MarkRead "2"]
                             (init_bot true)).
  - constructor.
  - repeat constructor.
Defined.

(** ** Marking a job read *)

Lemma find_job_spec h job_id l :
  match find_job h job_id l with
  | None => ∀ r, r ∈ l → id (deref h r) ≠ job_id
  | Some r => ∃ k, l !! k = Some r ∧ id (deref h r) = job_id ∧
                   ∀ i x, i < k → l !! i = Some x → id (deref h x) ≠ job_id
  end.
Proof.
  induction l as [|x l IH]; simpl.
  - by intros r ?%elem_of_nil.
  - destruct (decide (id (deref h x) = job_id)) as [Hx|Hx].
    + exists 0. split; [done|]. split; [done|]. intros i y Hi. lia.
    + destruct (find_job h job_id l) as [r|].
      * destruct IH as (k & Hk & Hid & Hbefore). exists (S k).
        split; [done|]. split; [done|]. intros [|i] y Hi; simpl.
        -- by intros [= <-].
        -- apply Hbefore. lia.
      * intros r [->|Hr]%elem_of_cons; [done|by apply IH].
Qed.

(** X13. [mark_job_as_read] with an id the snapshot does not hold changes
    nothing. Otherwise it sets the read flag of the first dictionary of the
    snapshot with the id, and of that one alone: a second copy of the
    posting stays as it is; and it lowers [unread_count] by one, not below
    0, whether or not the job had been read before. *)
Theorem mark_job_as_read_marks_first :
  ∀ (job_id : string) (b : bot),
    refs_valid b →
    let b' := mark_job_as_read job_id b in
    (job_id ∉ id <$> snapshot b → b' = b) ∧
    (job_id ∈ id <$> snapshot b →
     ∃ k r, current_jobs b !! k = Some r ∧
            id (deref (objects b) r) = job_id ∧
            (∀ i j, i < k → snapshot b !! i = Some j → id j ≠ job_id) ∧
            deref (objects b') r = set_is_read (deref (objects b) r) ∧
            (∀ x, x ≠ r → deref (objects b') x = deref (objects b) x) ∧
            current_jobs b' = current_jobs b ∧
            unread_count b' = Z.max 0 (unread_count b - 1)).
Proof.
  intros job_id b Hv b'. subst b'. unfold mark_job_as_read.
  pose proof (find_job_spec (objects b) job_id (current_jobs b)) as Hf.
  destruct (find_job (objects b) job_id (current_jobs b)) as [r|].
  - destruct Hf as (k & Hk & Hid & Hbefore). split.
    + intros Hn. exfalso. apply Hn. unfold snapshot. rewrite <- list_fmap_compose.
      apply list_elem_of_fmap. exists r. split; [done|]. by eapply list_elem_of_lookup_2.
    + intros _. exists k, r. split; [done|]. split; [done|]. split.
      { intros i j Hi Hj. unfold snapshot in Hj. rewrite list_lookup_fmap in Hj.
        destruct (current_jobs b !! i) as [x|] eqn:Hx; [|done].
        injection Hj as <-. by apply (Hbefore i). }
      assert (Hr : r < length (objects b)).
      { unfold refs_valid, valid_refs in Hv. rewrite Forall_forall in Hv.
        apply Hv. by eapply list_elem_of_lookup_2. }
      destruct b. cbn in *. split; [by apply deref_update_eq|].
      split; [|done]. intros x Hx. by apply deref_update_ne.
  - split; [done|]. intros Hin. exfalso. unfold snapshot in Hin.
    rewrite <- list_fmap_compose in Hin.
    apply list_elem_of_fmap in Hin as (r & Hid & Hr). by apply (Hf r).
Qed.

(** The sample bot holds the posting "2" twice; the second copy stays
    unread. *)
Lemma mark_job_as_read_marks_first_witness :
  "2" ∈ id <$> snapshot Sample.twice ∧
  get_is_read <$> snapshot (mark_job_as_read "2" Sample.twice) = [true; false].
Proof.
  assert (Hv : refs_valid Sample.twice).
  { apply (bool_decide_unpack _). by vm_compute. }
  assert (Hin : "2" ∈ id <$> snapshot Sample.twice).
  { apply (bool_decide_unpack _). by vm_compute. }
  split; [exact Hin|].
  destruct (proj2 (mark_job_as_read_marks_first "2" Sample.twice Hv) Hin)
    as (k & r & _).
  by vm_compute.
Defined.

(** ** Reading the snapshot *)

Lemma blocked_sets_snoc rows row :
  blocked_sets (Some (rows ++ [row]))
  = (match row.1 with
     | Some e => if decide (e = "") then (blocked_sets (Some rows)).1
                 else {[e]} ∪ (blocked_sets (Some rows)).1
     | None => (blocked_sets (Some rows)).1
     end,
     match row.2 with
     | Some u => if decide (u = "") then (blocked_sets (Some rows)).2
                 else {[u]} ∪ (blocked_sets (Some rows)).2
     | None => (blocked_sets (Some rows)).2
     end).
Proof. unfold blocked_sets. by rewrite foldl_app. Qed.

(** The two sets hold the employer ids and the usernames of the rows that
    are not empty. *)
Lemma blocked_sets_spec rows x :
  (x ∈ (blocked_sets (Some rows)).1 ↔ x ≠ "" ∧ ∃ row, row ∈ rows ∧ row.1 = Some x) ∧
  (x ∈ (blocked_sets (Some rows)).2 ↔ x ≠ "" ∧ ∃ row, row ∈ rows ∧ row.2 = Some x).
Proof.
  induction rows as [|row rows [IH1 IH2]] using rev_ind.
  - cbn. split; (split; [set_solver|]); intros (_ & row & Hr & _); by apply elem_of_nil in Hr.
  - rewrite blocked_sets_snoc. cbn [fst snd]. split.
    + destruct (row.1) as [e|] eqn:E; [destruct (decide (e = "")) as [->|He]|].
      * rewrite IH1. split; [set_solver|].
        intros (Hx & r & [Hr| ->%list_elem_of_singleton]%elem_of_app & Hr1); [eauto|congruence].
      * rewrite elem_of_union, elem_of_singleton, IH1. split.
        -- intros [->|(Hx & r & Hr & Hr1)]; [split; [done|]; exists row; set_solver|].
           split; [done|]. exists r. set_solver.
        -- intros (Hx & r & [Hr| ->%list_elem_of_singleton]%elem_of_app & Hr1);
             [right; eauto|left; congruence].
      * rewrite IH1. split; [set_solver|].
        intros (Hx & r & [Hr| ->%list_elem_of_singleton]%elem_of_app & Hr1); [eauto|congruence].
    + destruct (row.2) as [e|] eqn:E; [destruct (decide (e = "")) as [->|He]|].
      * rewrite IH2. split; [set_solver|].
        intros (Hx & r & [Hr| ->%list_elem_of_singleton]%elem_of_app & Hr1); [eauto|congruence].
      * rewrite elem_of_union, elem_of_singleton, IH2. split.
        -- intros [->|(Hx & r & Hr & Hr1)]; [split; [done|]; exists row; set_solver|].
           split; [done|]. exists r. set_solver.
        -- intros (Hx & r & [Hr| ->%list_elem_of_singleton]%elem_of_app & Hr1);
             [right; eauto|left; congruence].
      * rewrite IH2. split; [set_solver|].
        intros (Hx & r & [Hr| ->%list_elem_of_singleton]%elem_of_app & Hr1); [eauto|congruence].
Qed.

Lemma truthy_in_spec x s :
  truthy_in x s = true ↔ ∃ v, v ≠ "" ∧ x = Some v ∧ v ∈ s.
Proof.
  unfold truthy_in. destruct x as [v|]; [|naive_solver].
  rewrite andb_true_iff, negb_true_iff, bool_decide_eq_false, bool_decide_eq_true.
  naive_solver.
Qed.

Lemma is_blocked_spec rows j :
  is_blocked (blocked_sets (Some rows)) j = true ↔ ∃ row, row ∈ rows ∧ row_blocks j row.
Proof.
  unfold is_blocked, row_blocks. rewrite orb_true_iff, !truthy_in_spec. split.
  - intros [(v & Hv & Hj & Hin)|(v & Hv & Hj & Hin)].
    + apply (proj1 (blocked_sets_spec rows v)) in Hin as (_ & row & Hr & Hr1).
      exists row. split; [done|]. left. eauto.
    + apply (proj2 (blocked_sets_spec rows v)) in Hin as (_ & row & Hr & Hr1).
      exists row. split; [done|]. right. eauto.
  - intros (row & Hr & [(e & He & Hr1 & Hj)|(u & Hu & Hr2 & Hj)]).
    + left. exists e. split; [done|]. split; [done|].
      apply (proj1 (blocked_sets_spec rows e)). eauto.
    + right. exists u. split; [done|]. split; [done|].
      apply (proj2 (blocked_sets_spec rows u)). eauto.
Qed.

Lemma is_blocked_empty j : is_blocked (∅, ∅) j = false.
Proof.
  assert (H : ∀ x, truthy_in x (∅ : gset string) = false).
  { intros [v|]; [|done]. unfold truthy_in.
    rewrite (bool_decide_eq_false_2 (v ∈ (∅ : gset string))) by set_solver.
    apply andb_false_r. }
  unfold is_blocked. cbn [fst snd]. by rewrite !H.
Qed.

Lemma filter_all {A} (p : A → bool) (l : list A) :
  (∀ x, p x = true) → List.filter p l = l.
Proof.
  intros Hp. induction l as [|x l IH]; [done|]. cbn [List.filter].
  by rewrite Hp, IH.
Qed.

(** X14. [get_jobs] returns, in the order of the snapshot, the jobs that
    no row of the blocked users blocks: a row blocks a job by an employer
    id or a client username that is not empty and is that of the job.
    Without rows, or when the rows cannot be read, it returns the whole
    snapshot. [broadcast_new_jobs] sends the jobs the same filter leaves,
    sliced to [max_jobs], which [get_jobs] does not do. *)
Theorem get_jobs_hides_blocked :
  ∀ (rows : list (option string * option string)) (b : bot),
    (∀ j, j ∈ get_jobs (Some rows) b
          ↔ j ∈ snapshot b ∧ ¬ ∃ row, row ∈ rows ∧ row_blocks j row) ∧
    get_jobs (Some rows) b `sublist_of` snapshot b ∧
    get_jobs None b = snapshot b ∧
    get_jobs (Some []) b = snapshot b ∧
    (∀ max_jobs,
        ev_jobs (new_jobs_event (Some rows) max_jobs (snapshot b))
        = compress_job <$> slice_to (get_jobs (Some rows) b) max_jobs).
Proof.
  intros rows b. split; [|split; [|split; [|split]]].
  - intros j. unfold get_jobs.
    rewrite list_elem_of_In, filter_In, <- list_elem_of_In, negb_true_iff.
    rewrite <- is_blocked_spec. by destruct (is_blocked _ j); naive_solver.
  - unfold get_jobs. induction (snapshot b) as [|j l IH]; [done|]. cbn [List.filter].
    destruct (negb _); [by apply sublist_skip|by apply sublist_cons].
  - unfold get_jobs. apply filter_all. intros j. cbn. by rewrite is_blocked_empty.
  - unfold get_jobs. apply filter_all. intros j. cbn. by rewrite is_blocked_empty.
  - done.
Qed.

(** ** [scrape_multiple_categories] *)

Lemma dict_set_keys k v d :
  (dict_set k v d).*1 = if decide (k ∈ d.*1) then d.*1 else d.*1 ++ [k].
Proof.
  induction d as [|[k' v'] d IH]; [done|]. cbn [dict_set].
  destruct (decide (k' = k)) as [->|Hne]; csimpl.
  - rewrite decide_True by set_solver. done.
  - rewrite IH. destruct (decide (k ∈ d.*1)).
    + rewrite decide_True by set_solver. done.
    + rewrite decide_False by set_solver. done.
Qed.

Lemma dict_set_NoDup k v d : NoDup d.*1 → NoDup (dict_set k v d).*1.
Proof.
  intros Hnd. rewrite dict_set_keys. destruct (decide (k ∈ d.*1)); [done|].
  apply NoDup_app. split; [done|]. split; [|apply NoDup_singleton]. set_solver.
Qed.

Lemma dict_set_elem k v d k' v' :
  NoDup d.*1 →
  (k', v') ∈ dict_set k v d ↔ (k' = k ∧ v' = v) ∨ (k' ≠ k ∧ (k', v') ∈ d).
Proof.
  induction d as [|[k0 v0] d IH]; intros Hnd; cbn [dict_set].
  - rewrite list_elem_of_singleton. split; [intros [= -> ->]; by left|].
    intros [[-> ->]|[_ H]]; [done|by apply elem_of_nil in H].
  - apply NoDup_cons in Hnd as [Hk0 Hnd]. specialize (IH Hnd).
    destruct (decide (k0 = k)) as [->|Hne].
    + rewrite !elem_of_cons. split.
      * intros [[= -> ->]|Hin]; [by left|]. right. split; [|by right].
        intros ->. apply Hk0. apply list_elem_of_fmap. by exists (k, v').
      * intros [[-> ->]|[Hk [[= -> ->]|Hin]]]; [by left|done|by right].
    + rewrite !elem_of_cons, IH. split.
      * intros [[= -> ->]|[[-> ->]|[Hk Hin]]]; [right; eauto|by left|right; eauto].
      * intros [[-> ->]|[Hk [[= -> ->]|Hin]]]; [right; by left|by left|right; right; eauto].
Qed.

Lemma last_with_snoc k l x :
  last_with k (l ++ [x]) = if decide (id x = k) then Some x else last_with k l.
Proof.
  unfold last_with. rewrite List.filter_app. cbn [List.filter].
  destruct (decide (id x = k)) as [Hx|Hx].
  - rewrite bool_decide_eq_true_2 by done. apply last_snoc.
  - rewrite bool_decide_eq_false_2 by done. by rewrite app_nil_r.
Qed.

Lemma last_with_Some k l v : last_with k l = Some v → id v = k ∧ v ∈ l.
Proof.
  unfold last_with. intros H%last_Some_elem_of%list_elem_of_In%filter_In.
  destruct H as [Hin Hk%bool_decide_eq_true]. split; [done|]. by apply list_elem_of_In.
Qed.

Lemma last_with_is_Some k l : k ∈ id <$> l → is_Some (last_with k l).
Proof.
  intros (j & -> & Hj)%list_elem_of_fmap. unfold last_with. apply last_is_Some.
  intros Hnil. assert (Hin : In j (List.filter (λ j0, bool_decide (id j0 = id j)) l)).
  { apply filter_In. split; [by apply list_elem_of_In|by apply bool_decide_eq_true]. }
  by rewrite Hnil in Hin.
Qed.

(** The dictionary holds each id once, with the last job that has it. *)
Lemma unique_jobs_spec l :
  NoDup (unique_jobs l).*1 ∧
  ∀ k v, (k, v) ∈ unique_jobs l ↔ last_with k l = Some v.
Proof.
  induction l as [|x l [IH1 IH2]] using rev_ind.
  - split; [constructor|]. intros k v. split; [by intros ?%elem_of_nil|done].
  - unfold unique_jobs in *. rewrite foldl_app. cbn [foldl].
    split; [by apply dict_set_NoDup|]. intros k v.
    rewrite dict_set_elem, last_with_snoc, IH2 by done.
    destruct (decide (id x = k)) as [<-|Hne]; naive_solver.
Qed.

(** X15. [scrape_multiple_categories] returns the jobs in descending
    order of [posted_at] with pairwise distinct ids; the ids are those of
    the jobs the categories returned, and each id is represented by its
    last copy in the order of the categories (the merge of the bot keeps
    the first); a category whose scrape raised counts as one that returned
    nothing. *)
Theorem scrape_multiple_categories_spec :
  ∀ (results : list (option (list job))),
    let all_jobs := concat (default [] <$> results) in
    let out := scrape_multiple_categories results in
    newest_first out ∧
    NoDup (id <$> out) ∧
    (∀ j, j ∈ out ↔ last_with (id j) all_jobs = Some j) ∧
    (∀ k, k ∈ id <$> out ↔ k ∈ id <$> all_jobs) ∧
    (∀ before after,
        scrape_multiple_categories (before ++ None :: after)
        = scrape_multiple_categories (before ++ Some [] :: after)).
Proof.
  intros results all_jobs out.
  destruct (unique_jobs_spec all_jobs) as [Hnd Hd].
  assert (Hout : ∀ j, j ∈ out ↔ last_with (id j) all_jobs = Some j).
  { intros j. unfold out, scrape_multiple_categories. fold all_jobs.
    rewrite sort_desc_perm, list_elem_of_fmap. split.
    - intros ([k v] & -> & Hin). apply Hd in Hin as Hl.
      destruct (last_with_Some _ _ _ Hl) as [<- _]. done.
    - intros Hl. exists (id j, j). split; [done|]. by apply Hd. }
  assert (Hids : id <$> (unique_jobs all_jobs).*2 = (unique_jobs all_jobs).*1).
  { rewrite <- list_fmap_compose. apply list_fmap_ext. intros i [k v] Hi. simpl.
    apply list_elem_of_lookup_2, Hd, last_with_Some in Hi. tauto. }
  split; [apply sort_desc_sorted|]. split; [|split; [exact Hout|split]].
  - unfold out, scrape_multiple_categories. fold all_jobs.
    rewrite sort_desc_perm, Hids. exact Hnd.
  - intros k. split.
    + intros (j & -> & Hj)%list_elem_of_fmap. apply Hout, last_with_Some in Hj as [_ Hj].
      apply list_elem_of_fmap. eauto.
    + intros Hk. destruct (last_with_is_Some k all_jobs Hk) as [v Hv].
      destruct (last_with_Some _ _ _ Hv) as [<- _].
      apply list_elem_of_fmap. exists v. split; [done|]. by apply Hout.
  - intros before after. unfold scrape_multiple_categories.
    by rewrite !fmap_app, !fmap_cons.
Qed.

(** ** The end of an event stream *)

Lemma elem_of_unsubscribe r hb r' :
  r' ∈ sse_clients (unsubscribe r hb)
  ↔ r' ∈ sse_clients hb ∧ is_Some (queues hb !! r') ∧ r' ≠ r.
Proof.
  unfold unsubscribe. cbn [sse_clients].
  by rewrite list_elem_of_In, filter_In, <- list_elem_of_In, bool_decide_eq_true.
Qed.

Lemma filter_alive_others (qs : gmap nat queue) q r l :
  r ∉ l → Forall (λ r', is_Some (qs !! r')) l →
  List.filter (λ r', bool_decide (is_Some (<[r:=q]> qs !! r') ∧ r' ≠ r)) l = l.
Proof.
  induction l as [|x l IH]; intros Hr Hall; [done|].
  apply not_elem_of_cons in Hr as [Hne Hr]. apply Forall_cons in Hall as [Hx Hall].
  cbn [List.filter]. rewrite bool_decide_eq_true_2; [f_equal; by apply IH|].
  split; [by rewrite lookup_insert_ne|done].
Qed.

(** X16. When the handler of an event stream ends, its queue leaves the
    registry, together with the references that are dead; the live clients
    stay, in their order, and no queue is touched. A client that
    registers and leaves, all the others being alive, leaves the registry
    as it found it. After it has left, a broadcast returns and puts
    nothing in its queue. *)
Theorem unsubscribe_leaves_registry :
  ∀ (r : nat) (hb : hub),
    let hb' := unsubscribe r hb in
    (r ∉ sse_clients hb') ∧
    (∀ r', r' ∈ sse_clients hb'
           ↔ r' ∈ sse_clients hb ∧ is_Some (queues hb !! r') ∧ r' ≠ r) ∧
    sse_clients hb' `sublist_of` sse_clients hb ∧
    queues hb' = queues hb ∧
    (r ∉ sse_clients hb →
     Forall (λ r', is_Some (queues hb !! r')) (sse_clients hb) →
     sse_clients (unsubscribe r (subscribe r hb)) = sse_clients hb) ∧
    (∀ rows max_jobs jobs,
        NoDup (sse_clients hb) →
        ∃ hb'', broadcast_new_jobs rows max_jobs jobs hb' = Returned hb'' ∧
                queues hb'' !! r = queues hb !! r).
Proof.
  intros r hb hb'.
  assert (Hout : r ∉ sse_clients hb').
  { intros Hin%elem_of_unsubscribe. tauto. }
  assert (Hsub : sse_clients hb' `sublist_of` sse_clients hb).
  { unfold hb', unsubscribe. cbn [sse_clients].
    induction (sse_clients hb) as [|x l IH]; [done|]. cbn [List.filter].
    destruct (bool_decide _); [by apply sublist_skip|by apply sublist_cons]. }
  split; [exact Hout|]. split; [apply elem_of_unsubscribe|]. split; [exact Hsub|].
  split; [done|]. split.
  - intros Hr Hall. unfold unsubscribe, subscribe. cbn [sse_clients queues].
    rewrite List.filter_app. cbn [List.filter].
    rewrite (bool_decide_eq_false_2 (_ ∧ r ≠ r)) by tauto. rewrite app_nil_r.
    by apply filter_alive_others.
  - intros rows max_jobs jobs Hnd. unfold broadcast_new_jobs.
    destruct jobs as [|j jobs]; [by exists hb'|].
    assert (Hnd' : NoDup (sse_clients hb')) by (by apply (sublist_NoDup _ (sse_clients hb))).
    destruct (push_all_spec (new_jobs_event rows max_jobs (j :: jobs)) (sse_clients hb')
                Hnd' [] (queues hb')) as (alive' & qs' & Hpush & _ & Hother & _).
    fold (new_jobs_event rows max_jobs (j :: jobs)). rewrite Hpush.
    exists (mk_hub alive' qs'). split; [done|]. cbn [queues]. by rewrite Hother.
Qed.

(** ** Restart *)

(** X17. A stop followed by a start, the scraper being there, gives a
    running bot that is not paused, with the counters, the error
    bookkeeping and the whole cache reset, the order of the seen ids
    included, and an empty snapshot; the store and the sent set are as
    before the stop, so that a posting sent before the restart is admitted
    as new when it is scraped again and is not sent a second time. A start
    on a running bot changes nothing. *)
Theorem restart_resets_cache :
  ∀ (t1 t2 : Q) (joined : bool) (b : bot),
    scraper_ok b = true →
    let b' := state_of (start t2 (stop t1 joined b)) in
    is_running b' = true ∧ is_paused b' = false ∧
    seen_job_ids b' = ∅ ∧ seen_job_order b' = [] ∧ current_jobs b' = [] ∧
    jobs_found b' = 0%Z ∧ unread_count b' = 0%Z ∧
    error_count b' = 0%Z ∧ last_error b' = None ∧
    objects b' = objects b ∧ last_sent_job_ids b' = last_sent_job_ids b ∧
    max_jobs b' = max_jobs b ∧
    (∀ job, id (deref (objects b) job) ∈ last_sent_job_ids b →
            (admit_job ([], b') job).1 = [job] ∧ (emit [job] b').1 = []) ∧
    (∀ t3, start t3 b' = Returned b').
Proof.
  intros t1 t2 joined b Hs b'.
  assert (Hfields :
    is_running b' = true ∧ is_paused b' = false ∧
    seen_job_ids b' = ∅ ∧ seen_job_order b' = [] ∧ current_jobs b' = [] ∧
    jobs_found b' = 0%Z ∧ unread_count b' = 0%Z ∧
    error_count b' = 0%Z ∧ last_error b' = None ∧
    objects b' = objects b ∧ last_sent_job_ids b' = last_sent_job_ids b ∧
    max_jobs b' = max_jobs b ∧ max_seen_ids b' = max_seen_ids b).
  { subst b'. destruct b. cbn in Hs. subst. unfold stop, start. simpl.
    repeat case_match; simpl; repeat split; done. }
  destruct Hfields as (Hr & Hp & Hids & Hord & Hcur & Hf & Hu & He & Hl & Ho & Hsent & Hm & Hms).
  repeat (split; [assumption|]). split.
  - intros job Hjob. split.
    + unfold admit_job. rewrite Hids, Hord, Ho. unfold admit_id.
      rewrite decide_False by set_solver. done.
    + unfold emit. rewrite Ho, Hsent. cbn [filter list_filter].
      by rewrite decide_False by (intros H; by apply H).
  - intros t3. unfold start. by rewrite Hr.
Qed.

Lemma restart_resets_cache_witness :
  seen_job_order (state_of (start Sample.t4 (stop Sample.t3 true Sample.twice))) = [].
Proof.
  apply (restart_resets_cache Sample.t3 Sample.t4 true Sample.twice). by vm_compute.
Defined.
